(** * sia-satellite: ring-buffer caches and transaction pool admission

    A shallow embedding of [modules/consensus/cache.go] (the three bounded
    caches of the consensus set) and of the transaction pool's acceptance
    code ([acceptTransactionSet], [handleConflicts] and their helpers),
    followed by the properties proved about them.

    Conventions.
    - Go's [int] is a 64-bit two's complement integer: values are [Z] and
      every addition and subtraction is followed by [wrap_int].
    - Go maps are [gmap]s; a Go map used as a set is a [gset].
    - [range] over a Go map visits the keys in an unspecified order; every
      such loop whose order can be observed takes the order from an
      [iteration] supplied by the caller, which is only known to enumerate
      the keys without repetition.
    - 32-byte identifiers (hashes) are natural numbers [N]; the all-zero
      identifier is [0]. *)

From Stdlib Require Import ZArith NArith Lia String.
From stdpp Require Import base option list gmap fin_maps fin_sets sets strings.

Local Open Scope Z_scope.

(** ** Machine integers *)

Definition int_modulus : Z := 2 ^ 64.
Definition int_half : Z := 2 ^ 63.

(** The value of a Go [int] expression after overflow wrap-around. *)
Definition wrap_int (x : Z) : Z := (x + int_half) mod int_modulus - int_half.

Definition in_int_range (x : Z) : Prop := - int_half ≤ x < int_half.

(** A slice indexed by an [int]: a negative or too large index is a
    run-time panic, rendered as [None]. *)
Definition slice_get {A} (l : list A) (i : Z) : option A :=
  if decide (i < 0) then None else l !! Z.to_nat i.

Definition slice_set {A} (l : list A) (i : Z) (x : A) : list A :=
  <[Z.to_nat i := x]> l.

(** ** The bounded caches of the consensus set

    [siacoinOutputCache], [fileContractCache] and [blockCache] are the same
    code at three key/value types and three sizes; the model is written once
    over the key type [K], the value type [V], their zero values and the
    size. *)

Module Cache.

Definition scoCacheSize : Z := 200000.
Definition fcCacheSize : Z := 100000.
Definition blockCacheSize : Z := 32.

Section ring.
Context {K V : Type} `{Countable K}.
Variable zeroK : K.
Variable zeroV : V.
Variable cacheSize : Z.

(** [siacoinOutputInfo], [fileContractInfo], [blockInfo]. *)
Record info := Info { id : K; val : V }.

(** [siacoinOutputCache], [fileContractCache], [blockCache]. *)
Record cache := Cache {
  index : gmap K Z;
  outputs : list info;
  tip : Z
}.

(** [newSiacoinOutputCache] and its two siblings: an empty index and a
    slice of [cacheSize] zero-valued entries. *)
Definition newCache : cache :=
  {| index := ∅;
     outputs := replicate (Z.to_nat cacheSize) (Info zeroK zeroV);
     tip := 0 |}.

(** [Lookup]: [None] stands for the index-out-of-range panic of
    [cache.outputs[i]]. *)
Definition Lookup (c : cache) (k : K) : option (V * bool) :=
  match index c !! k with
  | None => Some (zeroV, false)
  | Some i =>
      match slice_get (outputs c) i with
      | Some e => Some (val e, true)
      | None => None
      end
  end.

(** [Push]: [None] stands for the index-out-of-range panic of
    [cache.outputs[cache.tip]]. *)
Definition Push (c : cache) (k : K) (v : V) : option cache :=
  match index c !! k with
  | Some _ => Some c
  | None =>
      let tip1 := wrap_int (tip c + 1) in
      let tip2 := if decide (cacheSize ≤ tip1) then 0 else tip1 in
      match slice_get (outputs c) tip2 with
      | None => None
      | Some e =>
          let old := id e in
          let index1 := delete old (index c) in
          let outputs1 := slice_set (outputs c) tip2 (Info k v) in
          Some {| index := <[k := tip2]> index1;
                  outputs := outputs1;
                  tip := tip2 |}
      end
  end.

(** A sequence of [Push] calls; a panic aborts the run. *)
Fixpoint pushAll (c : cache) (kvs : list (K * V)) : option cache :=
  match kvs with
  | [] => Some c
  | (k, v) :: rest =>
      match Push c k v with
      | Some c1 => pushAll c1 rest
      | None => None
      end
  end.

(** The representation invariant of a cache in use. *)
Record wf (c : cache) : Prop := Wf {
  wf_len : Z.of_nat (length (outputs c)) = cacheSize;
  wf_tip : 0 ≤ tip c < cacheSize;
  wf_index : ∀ k i, index c !! k = Some i →
    0 ≤ i ∧ ∃ e, outputs c !! Z.to_nat i = Some e ∧ id e = k
}.

End ring.

Arguments info : clear implicits.
Arguments cache : clear implicits.
Arguments cache _ _ {_ _}.

End Cache.

(** ** The transaction pool *)

Module Pool.

Local Open Scope N_scope.

(** *** Identifiers, currency, transactions *)

Abbreviation TransactionID := N (only parsing).
Abbreviation ObjectID := N (only parsing).
Abbreviation TransactionSetID := N (only parsing).
Abbreviation BlockHeight := N (only parsing).

(** [types.Currency] is an unsigned 128-bit amount whose [Add] and [Mul64]
    panic on overflow; [None] is the panic. *)
Abbreviation Currency := N (only parsing).

Definition currency_limit : N := 2 ^ 128.

Definition Add (a b : Currency) : option Currency :=
  if decide (a + b < currency_limit) then Some (a + b) else None.

Definition Mul64 (a : Currency) (v : N) : option Currency :=
  if decide (a * v < currency_limit) then Some (a * v) else None.

Definition ZeroCurrency : Currency := 0.

(** The parts of a [types.Transaction] that the pool reads. Identifiers
    that the code derives from the transaction ([t.ID()],
    [t.SiacoinOutputID(i)], [t.FileContractID(i)], [t.SiafundOutputID(i)])
    are stored: the i-th element of [SiacoinOutputIDs] is
    [t.SiacoinOutputID(i)], and likewise for the other two lists. The
    remaining lists hold the [ParentID] of each element. *)
Record Transaction := {
  ID : TransactionID;
  SiacoinInputs : list ObjectID;
  SiacoinOutputIDs : list ObjectID;
  FileContractIDs : list ObjectID;
  FileContractRevisions : list ObjectID;
  StorageProofs : list ObjectID;
  SiafundInputs : list ObjectID;
  SiafundOutputIDs : list ObjectID;
  MinerFees : list Currency
}.

(** The parts of a [modules.ConsensusChange] that the pool reads: the [ID]
    of every diff in the three lists. *)
Record ConsensusChange := {
  SiacoinOutputDiffs : list ObjectID;
  FileContractDiffs : list ObjectID;
  SiafundOutputDiffs : list ObjectID
}.

(** The errors [acceptTransactionSet] can return. [StandardError] is an
    error produced by [isStandardTransactionSet], returned as it is;
    [ConsensusConflict] carries the message built by
    [modules.NewConsensusConflict]. *)
Inductive error :=
  | errEmptySet
  | ErrDuplicateTransactionSet
  | errLowMinerFees
  | StandardError (msg : string)
  | ConsensusConflict (msg : string).

(** The outcome of a call: a value, a returned error, or a run-time panic
    (currency overflow). *)
Inductive result (A : Type) :=
  | Ok (a : A)
  | Err (e : error)
  | Panic.
Arguments Ok {A} a.
Arguments Err {A} e.
Arguments Panic {A}.

Definition is_Err {A} (r : result A) : Prop :=
  match r with Err _ => True | _ => False end.

Definition not_Ok {A} (r : result A) : Prop :=
  match r with Ok _ => False | _ => True end.

(** The fields of [TransactionPool] that admission reads and writes. *)
Record TransactionPool := {
  transactionSets : gmap TransactionSetID (list Transaction);
  knownObjects : gmap ObjectID TransactionSetID;
  transactionSetDiffs : gmap TransactionSetID ConsensusChange;
  transactionHeights : gmap TransactionID BlockHeight;
  transactionListSize : Z;
  blockHeight : BlockHeight
}.

Definition emptyPool (h : BlockHeight) : TransactionPool :=
  {| transactionSets := ∅; knownObjects := ∅; transactionSetDiffs := ∅;
     transactionHeights := ∅; transactionListSize := 0%Z; blockHeight := h |}.

(** *** Map iteration order *)

(** One way of visiting the keys of a Go map: each key once, in some
    order. *)
Record iteration := {
  visit :> gset N → list N;
  visit_perm : ∀ X, visit X ≡ₚ elements X
}.

Definition sorted_iteration : iteration :=
  {| visit := elements; visit_perm := λ X, reflexivity (elements X) |}.

(** The orders met during one call of [acceptTransactionSet]:
    [oid_order n] for the loop at the end of the call number [n] of
    [relatedObjectIDs] (number 0 is the call made by [acceptTransactionSet]
    itself), [merge_order] for the loop that builds the superset and
    [evict_order] for the loop that removes the conflicts. *)
Record schedule := {
  oid_order : nat → iteration;
  merge_order : iteration;
  evict_order : iteration
}.

Definition sorted_schedule : schedule :=
  {| oid_order := λ _, sorted_iteration;
     merge_order := sorted_iteration;
     evict_order := sorted_iteration |}.

(** *** relatedObjectIDs *)

(** The identifiers one transaction puts into [oidMap]. *)
Definition txnObjects (t : Transaction) : list ObjectID :=
  SiacoinInputs t ++ SiacoinOutputIDs t ++ FileContractIDs t ++
  FileContractRevisions t ++ StorageProofs t ++ SiafundInputs t ++
  SiafundOutputIDs t.

(** [oidMap] at the end of the first loop of [relatedObjectIDs]. *)
Definition oidMap (ts : list Transaction) : gset ObjectID :=
  foldl (λ m t, foldl (λ m oid, {[oid]} ∪ m) m (txnObjects t)) ∅ ts.

Definition relatedObjectIDs (it : iteration) (ts : list Transaction)
  : list ObjectID :=
  it (oidMap ts).

(** The conflict loop shared by [acceptTransactionSet] and
    [handleConflicts]: the owner of every known object, in the order of
    [oids], with repetitions. *)
Definition lookupConflicts (tp : TransactionPool) (oids : list ObjectID)
  : list TransactionSetID :=
  omap (λ oid, knownObjects tp !! oid) oids.

(** *** Admission *)

Section admission.

(** What the acceptance code takes from files that are not modelled:
    - [setIDOf ts] is [modules.TransactionSetID(h.Sum())] for the hasher
      fed with the encoding of [ts];
    - [EncodedLen ts] is [types.EncodedLen(transactionSet(ts))];
    - [isStandardTransactionSet] returns the size of the set or an error
      of its own (never one of the three errors declared for the
      acceptance code);
    - [TransactionPoolSizeForFee] is the constant of that name;
    - [requiredFeesToExtendTpoolAtSize] is computed in [float64] with
      [math.Pow] and converted to a currency; it is taken as a function
      from pool sizes to currencies. *)
Variable setIDOf : list Transaction → TransactionSetID.
Variable EncodedLen : list Transaction → Z.
Variable isStandardTransactionSet : list Transaction → string + N.
Variable TransactionPoolSizeForFee : Z.
Variable requiredFeesToExtendTpoolAtSize : Z → Currency.

(** [requiredFeesToExtendTpool] *)
Definition requiredFeesToExtendTpool (tp : TransactionPool) : Currency :=
  if decide (transactionListSize tp < TransactionPoolSizeForFee)%Z
  then ZeroCurrency
  else requiredFeesToExtendTpoolAtSize (transactionListSize tp).

(** [checkTransactionSetComposition] *)
Definition checkTransactionSetComposition (tp : TransactionPool)
    (ts : list Transaction) : result N :=
  let setID := setIDOf ts in
  match transactionSets tp !! setID with
  | Some _ => Err ErrDuplicateTransactionSet
  | None =>
      match isStandardTransactionSet ts with
      | inl err => Err (StandardError err)
      | inr setSize => Ok setSize
      end
  end.

(** The fee loop: [setFees = setFees.Add(fee)] over every fee of every
    transaction, starting from the zero currency. *)
Definition sumMinerFees (ts : list Transaction) : option Currency :=
  foldl (λ acc txn,
           foldl (λ acc fee, acc ≫= λ setFees, Add setFees fee)
                 acc (MinerFees txn))
        (Some ZeroCurrency) ts.

(** The sum of all declared miner fees of a set, as a number. *)
Definition totalFees (ts : list Transaction) : N :=
  foldr (λ txn acc, foldr N.add 0 (MinerFees txn) + acc) 0 ts.

(** The fee gate of both paths: [requiredFees] is computed first, then
    [setFees], then [requiredFees.Cmp(setFees) > 0] decides. *)
Definition checkMinerFees (tp : TransactionPool) (ts : list Transaction)
    (setSize : N) : result unit :=
  match Mul64 (requiredFeesToExtendTpool tp) setSize with
  | None => Panic
  | Some requiredFees =>
      match sumMinerFees ts with
      | None => Panic
      | Some setFees =>
          if decide (setFees < requiredFees) then Err errLowMinerFees
          else Ok ()
      end
  end.

(** [tp.transactionSets[conflict]]: a missing key reads as the nil
    slice. *)
Definition setOf (tp : TransactionPool) (conflict : TransactionSetID)
  : list Transaction :=
  default [] (transactionSets tp !! conflict).

(** [conflictMap] after the first loop of [handleConflicts]. *)
Definition buildConflictMap (tp : TransactionPool)
    (conflicts : list TransactionSetID)
  : gmap TransactionID TransactionSetID :=
  foldl (λ m conflict,
           foldl (λ m conflictTxn, <[ID conflictTxn := conflict]> m)
                 m (setOf tp conflict))
        ∅ conflicts.

(** [dedupSet] after the second loop of [handleConflicts]. *)
Definition dedup (conflictMap : gmap TransactionID TransactionSetID)
    (ts : list Transaction) : list Transaction :=
  filter (λ t, conflictMap !! ID t = None) ts.

(** One turn of the loop that removes the conflicts. *)
Definition evict (tp : TransactionPool) (conflict : TransactionSetID)
  : TransactionPool :=
  let conflictSet := setOf tp conflict in
  {| transactionSets := delete conflict (transactionSets tp);
     knownObjects := knownObjects tp;
     transactionSetDiffs := delete conflict (transactionSetDiffs tp);
     transactionHeights := transactionHeights tp;
     transactionListSize :=
       wrap_int (transactionListSize tp - EncodedLen conflictSet);
     blockHeight := blockHeight tp |}.

(** [tp.knownObjects[oid] = setID] for every [oid] of a list. *)
Definition indexObjects (known : gmap ObjectID TransactionSetID)
    (oids : list ObjectID) (setID : TransactionSetID)
  : gmap ObjectID TransactionSetID :=
  foldl (λ m oid, <[oid := setID]> m) known oids.

(** The loop over the transactions of an admitted set that records the
    height of those seen for the first time. *)
Definition recordHeights (heights : gmap TransactionID BlockHeight)
    (h : BlockHeight) (ts : list Transaction)
  : gmap TransactionID BlockHeight :=
  foldl (λ m txn,
           match m !! ID txn with
           | Some _ => m
           | None => <[ID txn := h]> m
           end)
        heights ts.

(** "Add the transaction set to the pool": the last part of both
    functions. [oids] is the list of object identifiers to index: the
    related objects of the set in [acceptTransactionSet], the identifiers
    of the three diff lists in [handleConflicts]. *)
Definition install (tp : TransactionPool) (ts : list Transaction)
    (oids : list ObjectID) (cc : ConsensusChange) : TransactionPool :=
  let setID := setIDOf ts in
  {| transactionSets := <[setID := ts]> (transactionSets tp);
     knownObjects := indexObjects (knownObjects tp) oids setID;
     transactionSetDiffs := <[setID := cc]> (transactionSetDiffs tp);
     transactionHeights :=
       recordHeights (transactionHeights tp) (blockHeight tp) ts;
     transactionListSize :=
       wrap_int (transactionListSize tp + EncodedLen ts);
     blockHeight := blockHeight tp |}.

Definition diffObjects (cc : ConsensusChange) : list ObjectID :=
  SiacoinOutputDiffs cc ++ FileContractDiffs cc ++ SiafundOutputDiffs cc.

(** The ledger's validation callback: an error message or the change. *)
Definition validator := list Transaction → string + ConsensusChange.

(** [superset] as built by [handleConflicts] from [conflictMap] and
    [dedupSet]. *)
Definition supersetMap (conflictMap : gmap TransactionID TransactionSetID)
  : gset TransactionSetID :=
  map_img conflictMap.

Definition mergeSuperset (sch : schedule) (tp : TransactionPool)
    (conflictMap : gmap TransactionID TransactionSetID)
    (dedupSet : list Transaction) : list Transaction :=
  concat (setOf tp <$> merge_order sch (supersetMap conflictMap))
    ++ dedupSet.

(** [handleConflicts] from "Merge all of the conflict sets" to the
    end. *)
Definition mergeConflicts (sch : schedule) (tp : TransactionPool)
    (conflictMap : gmap TransactionID TransactionSetID)
    (dedupSet : list Transaction) (txnFn : validator)
  : result (list Transaction) * TransactionPool :=
  let superset := mergeSuperset sch tp conflictMap dedupSet in
  match checkTransactionSetComposition tp superset with
  | Err e => (Err e, tp)
  | Panic => (Panic, tp)
  | Ok setSize =>
      match checkMinerFees tp superset setSize with
      | Err e => (Err e, tp)
      | Panic => (Panic, tp)
      | Ok _ =>
          match txnFn superset with
          | inl err =>
              (Err (ConsensusConflict
                ("provided transaction set has prereqs, but is still invalid: "
                   ++ err)), tp)
          | inr cc =>
              let tp1 :=
                foldl evict tp (evict_order sch (supersetMap conflictMap)) in
              (Ok superset, install tp1 superset (diffObjects cc) cc)
          end
      end
  end.

(** [handleConflicts]. The recursive call is made on a strictly shorter
    set; [fuel] bounds the number of nested calls and [None] means that
    it ran out. [lvl] counts the calls of [relatedObjectIDs] made so far
    in this admission. *)
Fixpoint handleConflicts (fuel : nat) (sch : schedule) (lvl : nat)
    (tp : TransactionPool) (ts : list Transaction)
    (conflicts : list TransactionSetID) (txnFn : validator)
  : option (result (list Transaction) * TransactionPool) :=
  match fuel with
  | O => None
  | S fuel' =>
      let conflictMap := buildConflictMap tp conflicts in
      let dedupSet := dedup conflictMap ts in
      if decide (length dedupSet = 0%nat) then
        Some (Err ErrDuplicateTransactionSet, tp)
      else if decide (length dedupSet < length ts)%nat then
        let oids := relatedObjectIDs (oid_order sch lvl) dedupSet in
        let conflicts' := lookupConflicts tp oids in
        handleConflicts fuel' sch (S lvl) tp dedupSet conflicts' txnFn
      else
        Some (mergeConflicts sch tp conflictMap dedupSet txnFn)
  end.

(** [acceptTransactionSet]. [transactionConfirmed] is the pool's lookup
    in the ledger's transaction history. *)
Definition acceptTransactionSet (sch : schedule)
    (transactionConfirmed : TransactionID → bool) (tp : TransactionPool)
    (ts : list Transaction) (txnFn : validator)
  : option (result (list Transaction) * TransactionPool) :=
  if decide (length ts = 0%nat) then Some (Err errEmptySet, tp) else
  let oldTS := ts in
  let ts := filter (λ txn, transactionConfirmed (ID txn) = false) oldTS in
  if decide (length ts = 0%nat) then
    Some (Err ErrDuplicateTransactionSet, tp)
  else
  match checkTransactionSetComposition tp ts with
  | Err e => Some (Err e, tp)
  | Panic => Some (Panic, tp)
  | Ok setSize =>
      match checkMinerFees tp ts setSize with
      | Err e => Some (Err e, tp)
      | Panic => Some (Panic, tp)
      | Ok _ =>
          let oids := relatedObjectIDs (oid_order sch 0) ts in
          let conflicts := lookupConflicts tp oids in
          if decide (0 < length conflicts)%nat then
            handleConflicts (S (length ts)) sch 1 tp ts conflicts txnFn
          else
          match txnFn ts with
          | inl err =>
              Some (Err (ConsensusConflict
                ("provided transaction set is invalid: " ++ err)), tp)
          | inr cc => Some (Ok ts, install tp ts oids cc)
          end
      end
  end.

(** What "add the transaction set to the pool" leaves behind. *)
Record installed (tp0 tp' : TransactionPool) (s : list Transaction)
    (oids : list ObjectID) (cc : ConsensusChange) : Prop := {
  installed_set : transactionSets tp' = <[setIDOf s := s]> (transactionSets tp0);
  installed_diff :
    transactionSetDiffs tp' = <[setIDOf s := cc]> (transactionSetDiffs tp0);
  installed_objects : ∀ oid,
    knownObjects tp' !! oid =
    if decide (oid ∈ oids) then Some (setIDOf s) else knownObjects tp0 !! oid;
  installed_size :
    transactionListSize tp' =
    wrap_int (transactionListSize tp0 + EncodedLen s);
  installed_heights : ∀ i,
    transactionHeights tp' !! i =
    match transactionHeights tp0 !! i with
    | Some h0 => Some h0
    | None => if decide (i ∈ ID <$> s) then Some (blockHeight tp0) else None
    end;
  installed_blockHeight : blockHeight tp' = blockHeight tp0
}.

(** The sum of the encoded lengths of the registered sets. *)
Definition bytesOf (sets : gmap TransactionSetID (list Transaction)) : Z :=
  map_fold (λ _ ts acc, EncodedLen ts + acc)%Z 0%Z sets.

Definition poolBytes (tp : TransactionPool) : Z :=
  bytesOf (transactionSets tp).

(** The sum of the encoded lengths of the sets named by a list. *)
Definition sumLens (tp : TransactionPool) (l : list TransactionSetID) : Z :=
  foldr (λ c acc, EncodedLen (setOf tp c) + acc)%Z 0%Z l.

(** What a successful call did to the registry and to the byte count:
    the sets named by [evicted] are gone, [s] is registered. *)
Record replaced (tp tp' : TransactionPool) (evicted : list TransactionSetID)
    (s : list Transaction) : Prop := {
  replaced_nodup : NoDup evicted;
  replaced_registered :
    ∀ c, c ∈ evicted → is_Some (transactionSets tp !! c);
  replaced_fresh : transactionSets tp !! setIDOf s = None;
  replaced_sets : ∀ k,
    transactionSets tp' !! k =
    if decide (k = setIDOf s) then Some s
    else if decide (k ∈ evicted) then None
    else transactionSets tp !! k;
  replaced_size :
    transactionListSize tp' =
    wrap_int (transactionListSize tp - sumLens tp evicted + EncodedLen s);
  replaced_bytes :
    poolBytes tp' = (poolBytes tp - sumLens tp evicted + EncodedLen s)%Z
}.

(** The pools that successful calls of [acceptTransactionSet] lead to from
    an empty pool; each call has its own ledger state and its own
    iteration orders. *)
Inductive reachable : TransactionPool → Prop :=
  | reachable_empty h : reachable (emptyPool h)
  | reachable_accept tp sch confirmed ts txnFn superset tp' :
      reachable tp →
      acceptTransactionSet sch confirmed tp ts txnFn
        = Some (Ok superset, tp') →
      reachable tp'.

End admission.

End Pool.

(** ** A small ledger to run the pool on

    Concrete stand-ins for what the acceptance code takes from outside,
    used to evaluate it on explicit pools. *)

Module Scenario.
Import Pool.

Local Open Scope N_scope.

(** A set identifier that tells apart all sets of transactions with
    identifiers below 1008: the positional code of the identifiers. *)
Definition setIDOf (ts : list Transaction) : TransactionSetID :=
  foldl (λ h t, h * 1009 + ID t + 1) 0 ts.

(** Encoded length of one transaction, by identifier. *)
Definition txnLen (i : TransactionID) : Z :=
  match i with
  | 1 => 240000
  | 2 => 150000
  | 3 => 100000
  | 4 => 1000
  | 5 => 9000
  | _ => 500
  end.

(** Encoded length of a set: an 8-byte length prefix, then the
    transactions. *)
Definition EncodedLen (ts : list Transaction) : Z :=
  foldl (λ n t, n + txnLen (ID t))%Z 8%Z ts.

Definition TransactionSetSizeLimit : Z := 250000.

(** Modelled from the spec: [isStandardTransactionSet] is missing from the
    sources; composition checking rejects a set that violates the size
    rules and otherwise returns its encoded byte length. The format rules
    of single transactions are left out. *)
Definition isStandardTransactionSet (ts : list Transaction) : string + N :=
  if decide (TransactionSetSizeLimit < EncodedLen ts)%Z
  then inl "transaction set is too large"%string
  else inr (Z.to_N (EncodedLen ts)).

(** Modelled from the spec: the fixed constants [T_free], [T_target] and
    [k > 1] of the fee policy; their declarations are missing from the
    sources and these values stand in for them. *)
Definition TransactionPoolSizeForFee : Z := 500000.
Definition TransactionPoolSizeTarget : Z := 3000000.
Definition TransactionPoolExponentiation : Z := 3.

(** Modelled from the spec: [base_fee_per_byte × (size / T_target)^k] with
    [base_fee_per_byte] one thousandth of a siacoin (10^21 hastings),
    rounded down; the constants and the conversion from [float64] are
    missing from the sources. *)
Definition requiredFeesToExtendTpoolAtSize (size : Z) : Currency :=
  Z.to_N (10 ^ 21 * size ^ TransactionPoolExponentiation
            / TransactionPoolSizeTarget ^ TransactionPoolExponentiation).

(** A transaction that spends [ins] and creates [outs], with no fee. *)
Definition transfer (i : TransactionID) (ins outs : list ObjectID)
  : Transaction :=
  {| ID := i; SiacoinInputs := ins; SiacoinOutputIDs := outs;
     FileContractIDs := []; FileContractRevisions := [];
     StorageProofs := []; SiafundInputs := []; SiafundOutputIDs := [];
     MinerFees := [] |}.

Definition txP : Transaction := transfer 1 [101] [201].
Definition txQ : Transaction := transfer 2 [102] [202].
Definition txA : Transaction := transfer 3 [103] [203].
Definition txB : Transaction := transfer 4 [104] [204].
(** [txC] spends the output that [txA] creates. *)
Definition txC : Transaction := transfer 5 [203] [205].

(** A ledger that accepts every set and reports a siacoin output diff for
    every output spent or created. *)
Definition ledger : validator :=
  λ ts, inr {| SiacoinOutputDiffs :=
                 flat_map (λ t, SiacoinInputs t ++ SiacoinOutputIDs t) ts;
               FileContractDiffs := [];
               SiafundOutputDiffs := [] |}.

Definition unconfirmed : TransactionID → bool := λ _, false.

Definition submit (txnFn : validator) (confirmed : TransactionID → bool)
    (tp : TransactionPool) (ts : list Transaction)
  : option (result (list Transaction) * TransactionPool) :=
  acceptTransactionSet setIDOf EncodedLen isStandardTransactionSet
    TransactionPoolSizeForFee requiredFeesToExtendTpoolAtSize
    sorted_schedule confirmed tp ts txnFn.

(** The pool after a list of submissions, whatever their outcome. *)
Definition submitAll (tp : TransactionPool) (tss : list (list Transaction))
  : option TransactionPool :=
  foldl (λ otp ts, otp ≫= λ tp, snd <$> submit ledger unconfirmed tp ts)
        (Some tp) tss.

(** The pool that holds the single set [[txA]]. *)
Definition poolA : option TransactionPool :=
  submitAll (emptyPool 10) [[txA]].

Definition poolA_state : TransactionPool := default (emptyPool 10) poolA.

(** The pool that holds the three sets [[txP]], [[txQ]] and [[txA]]:
    490024 bytes. *)
Definition poolPQA : option TransactionPool :=
  submitAll (emptyPool 10) [[txP]; [txQ]; [txA]].

Definition poolPQA_state : TransactionPool :=
  default (emptyPool 10) poolPQA.


(** Two transactions of 500 bytes that differ in their fee: [txRich] pays
    10^22 hastings, [txPoor] pays 10^20. *)
Definition txRich : Transaction :=
  {| ID := 6; SiacoinInputs := [106]; SiacoinOutputIDs := [206];
     FileContractIDs := []; FileContractRevisions := [];
     StorageProofs := []; SiafundInputs := []; SiafundOutputIDs := [];
     MinerFees := [10 ^ 22] |}.

Definition txPoor : Transaction :=
  {| ID := 7; SiacoinInputs := [107]; SiacoinOutputIDs := [207];
     FileContractIDs := []; FileContractRevisions := [];
     StorageProofs := []; SiafundInputs := []; SiafundOutputIDs := [];
     MinerFees := [10 ^ 19; 9 * 10 ^ 19] |}.

End Scenario.

(** ** Slots and their age in the bounded caches *)

Module CacheOrder.
Import Cache.

Section order.
Context {K V : Type} `{Countable K}.
Variable zeroK : K.
Variable cacheSize : Z.

(** Every slot whose identifier is not the zero identifier is the slot
    that the index gives for that identifier. *)
Definition slots_indexed (c : cache K V) : Prop :=
  ∀ i e, outputs c !! i = Some e → id e ≠ zeroK →
         index c !! id e = Some (Z.of_nat i).

(** The slot that the next insertion writes. *)
Definition next_slot (c : cache K V) : Z :=
  if decide (cacheSize ≤ tip c + 1) then 0 else tip c + 1.

(** The number of insertions after which [Push] reaches slot [i]: [tip]
    moves up by one at each insertion and goes back to 0 when it reaches
    [cacheSize]. *)
Definition remaining (c : cache K V) (i : Z) : Z :=
  if decide (tip c < i) then i - tip c - 1
  else i - tip c - 1 + cacheSize.

(** Every hit of the index is a pair of the list [h], stored in the slot
    the index names. *)
Definition holds_only (c : cache K V) (h : list (K * V)) : Prop :=
  ∀ k i, index c !! k = Some i →
         ∃ v, slice_get (outputs c) i = Some (Info k v) ∧ (k, v) ∈ h.

End order.

(** A run of [n] calls for tests: keys 100, 101, ..., with value 0. *)
Definition fresh_pairs (n : nat) : list (N * N) :=
  (λ i, (N.of_nat (100 + i), 0%N)) <$> seq 0 n.

End CacheOrder.

(** ** The messages of consensus conflicts *)

Module PoolMessages.

(** The text that [handleConflicts] puts before the ledger's message. *)
Definition prereq_prefix : string :=
  "provided transaction set has prereqs, but is still invalid: ".

(** The text that [acceptTransactionSet] puts before it on the
    conflict-free path. *)
Definition invalid_prefix : string :=
  "provided transaction set is invalid: ".

End PoolMessages.

(** * Properties *)

(** ** Machine integers *)

Lemma wrap_int_small x : in_int_range x → wrap_int x = x.
Proof.
  unfold in_int_range, wrap_int, int_half, int_modulus. intros Hx.
  rewrite Z.mod_small; lia.
Qed.

Lemma wrap_int_range x : in_int_range (wrap_int x).
Proof.
  unfold in_int_range, wrap_int, int_half, int_modulus.
  pose proof (Z.mod_pos_bound (x + 2 ^ 63) (2 ^ 64)). lia.
Qed.

Lemma wrap_int_add_l x y : wrap_int (wrap_int x + y) = wrap_int (x + y).
Proof.
  unfold wrap_int, int_half, int_modulus.
  f_equal.
  replace ((x + 2 ^ 63) mod 2 ^ 64 - 2 ^ 63 + y + 2 ^ 63)
    with ((x + 2 ^ 63) mod 2 ^ 64 + y) by lia.
  rewrite Zplus_mod_idemp_l. f_equal. lia.
Qed.

Lemma wrap_int_sub_l x y : wrap_int (wrap_int x - y) = wrap_int (x - y).
Proof. apply (wrap_int_add_l x (- y)). Qed.

(** ** The bounded caches *)

Module CacheFacts.
Import Cache.

Section ring_facts.
Context {K V : Type} `{Countable K}.
Variable zeroK : K.
Variable zeroV : V.
Variable cacheSize : Z.

Local Abbreviation wf := (wf cacheSize).
Local Abbreviation Push := (Push cacheSize).
Local Abbreviation pushAll := (pushAll cacheSize).
Local Abbreviation newCache := (newCache zeroK zeroV cacheSize).
Local Abbreviation Lookup := (Lookup zeroV).

Implicit Types (c : cache K V) (k : K) (v : V) (kvs : list (K * V)).

Hypothesis cacheSize_pos : 0 < cacheSize.
Hypothesis cacheSize_int : cacheSize < int_half.

Lemma wf_new : wf newCache.
Proof.
  split; simpl.
  - rewrite length_replicate. lia.
  - lia.
  - intros k i Hk. by rewrite lookup_empty in Hk.
Qed.

Lemma slice_get_Some {A} (l : list A) i :
  0 ≤ i < Z.of_nat (length l) → ∃ x, slice_get l i = Some x.
Proof.
  intros Hi. unfold slice_get. rewrite decide_False by lia.
  apply lookup_lt_is_Some. lia.
Qed.

Lemma next_tip_range c :
  wf c →
  let tip1 := wrap_int (tip c + 1) in
  0 ≤ (if decide (cacheSize ≤ tip1) then 0 else tip1) < cacheSize.
Proof.
  intros [_ Ht _]. simpl.
  rewrite wrap_int_small by (unfold in_int_range, int_half in *; lia).
  case_decide; lia.
Qed.

Lemma Push_wf c k v :
  wf c → ∃ c1, Push c k v = Some c1 ∧ wf c1.
Proof.
  intros Hwf. unfold Push.
  destruct (index c !! k) as [i|] eqn:Hk; [by eauto|].
  pose proof (next_tip_range c Hwf) as Ht. simpl in Ht.
  set (t := if decide (cacheSize ≤ wrap_int (tip c + 1)) then 0
            else wrap_int (tip c + 1)) in *.
  destruct Hwf as [Hlen Htip Hidx].
  destruct (slice_get_Some (outputs c) t) as [e He]; [lia|].
  rewrite He. eexists; split; [done|].
  unfold slice_get in He. rewrite decide_False in He by lia.
  split; simpl.
  - unfold slice_set. rewrite length_insert. done.
  - done.
  - intros k' i'. unfold slice_set.
    destruct (decide (k' = k)) as [->|Hne].
    + rewrite lookup_insert_eq. intros [= <-]. split; [lia|].
      exists (Info k v). split; [|done].
      apply list_lookup_insert_eq. lia.
    + rewrite lookup_insert_ne by done.
      intros Hk'. apply lookup_delete_Some in Hk' as [Hold Hk'].
      destruct (Hidx _ _ Hk') as (Hi' & e' & He' & Hid).
      split; [done|]. exists e'. split; [|done].
      rewrite list_lookup_insert_ne; [done|].
      intros Heq. apply Z2Nat.inj in Heq; [|lia..]. subst i'.
      rewrite He in He'. injection He' as ->. congruence.
Qed.

Lemma pushAll_wf kvs : ∀ c,
  wf c → ∃ c1, pushAll c kvs = Some c1 ∧ wf c1.
Proof.
  induction kvs as [|[k v] rest IH]; intros c Hwf; simpl.
  - eauto.
  - destruct (Push_wf c k v Hwf) as (c1 & -> & Hwf1). by apply IH.
Qed.

(** Every indexed key is the identifier stored in some slot, so the index
    cannot outgrow the slice. *)
Lemma size_list_to_set_le (l : list K) :
  (size (list_to_set l : gset K) ≤ length l)%nat.
Proof.
  induction l as [|x l IH].
  - rewrite list_to_set_nil, size_empty. done.
  - rewrite list_to_set_cons, size_union_alt, size_singleton.
    assert (list_to_set l ∖ {[x]} ⊆ (list_to_set l : gset K)) as Hsub.
    { intros y Hy. apply elem_of_difference in Hy. tauto. }
    apply subseteq_size in Hsub. simpl. lia.
Qed.

Lemma wf_size c :
  wf c → Z.of_nat (size (index c)) ≤ cacheSize.
Proof.
  intros [Hlen _ Hidx].
  rewrite <- Hlen, <- size_dom.
  apply inj_le.
  etrans; [|etrans; [apply (size_list_to_set_le (id <$> outputs c))|]].
  - apply subseteq_size. intros k Hk.
    apply elem_of_dom in Hk as [i Hi].
    destruct (Hidx _ _ Hi) as (_ & e & He & <-).
    apply elem_of_list_to_set, list_elem_of_fmap.
    exists e. split; [done|]. by eapply list_elem_of_lookup_2.
  - by rewrite length_fmap.
Qed.

Lemma Push_present c k v i :
  index c !! k = Some i → Push c k v = Some c.
Proof. intros Hk. unfold Push. by rewrite Hk. Qed.

Lemma Push_absent_Lookup c k v c1 :
  wf c → index c !! k = None → Push c k v = Some c1 →
  index c1 !! k = Some (tip c1) ∧ Lookup c1 k = Some (v, true).
Proof.
  intros Hwf Hk. unfold Push. rewrite Hk.
  pose proof (next_tip_range c Hwf) as Ht. simpl in Ht.
  set (t := if decide (cacheSize ≤ wrap_int (tip c + 1)) then 0
            else wrap_int (tip c + 1)) in *.
  destruct (slice_get (outputs c) t) as [e|] eqn:He; [|done].
  intros [= <-]. unfold Lookup. simpl.
  rewrite lookup_insert_eq. split; [done|].
  unfold slice_get, slice_set. rewrite decide_False by lia.
  rewrite list_lookup_insert_eq; [done|].
  destruct Hwf as [Hlen _ _]. lia.
Qed.

End ring_facts.

(** C10. For each of the three caches (sizes [scoCacheSize], [fcCacheSize]
    and [blockCacheSize]) and after any sequence of [Push] calls on a new
    cache: no call panics; the index holds at most [cacheSize] entries; a
    [Push] of a key that is in the index returns the cache as it is (same
    index, same slots, same [tip]); and a [Push] of an absent key [k] with
    value [v] yields a cache in which [Lookup k] finds [v] and on which a
    second [Push] of [k] with any other value [v'] changes nothing, so that
    [Lookup k] keeps finding [v]. *)
Theorem bounded_cache_push_idempotent {K V : Type} `{Countable K}
    (zeroK : K) (zeroV : V) (cacheSize : Z) (kvs : list (K * V)) :
  cacheSize ∈ [scoCacheSize; fcCacheSize; blockCacheSize] →
  ∃ c : cache K V,
    pushAll cacheSize (newCache zeroK zeroV cacheSize) kvs = Some c ∧
    Z.of_nat (size (index c)) ≤ cacheSize ∧
    (∀ k v, is_Some (index c !! k) → Push cacheSize c k v = Some c) ∧
    (∀ k v v', index c !! k = None →
       ∃ c1, Push cacheSize c k v = Some c1 ∧
             Lookup zeroV c1 k = Some (v, true) ∧
             Push cacheSize c1 k v' = Some c1 ∧
             Lookup zeroV c1 k = Some (v, true)).
Proof.
  intros Hsize.
  assert (0 < cacheSize < int_half) as [Hpos Hint].
  { unfold int_half.
    repeat (apply elem_of_cons in Hsize as [->|Hsize]; [by vm_compute|]).
    by apply elem_of_nil in Hsize. }
  assert (∃ c, pushAll cacheSize (newCache zeroK zeroV cacheSize) kvs = Some c
               ∧ wf cacheSize c) as (c & Hrun & Hwf).
  { apply pushAll_wf; [done..|]. by apply wf_new. }
  exists c. split; [done|]. split; [by apply wf_size|]. split.
  - intros k v [i Hi]. by eapply Push_present.
  - intros k v v' Hk.
    assert (∃ c1, Push cacheSize c k v = Some c1 ∧ wf cacheSize c1)
      as (c1 & Hpush & Hwf1) by (apply Push_wf; done).
    assert (index c1 !! k = Some (tip c1) ∧ Lookup zeroV c1 k = Some (v, true))
      as [Hidx Hlook]
      by (eapply (Push_absent_Lookup zeroV cacheSize Hpos Hint c); done).
    exists c1. repeat split; try done.
    by eapply Push_present.
Qed.

Lemma bounded_cache_push_idempotent_witness :
  ∃ c : cache N N,
    pushAll blockCacheSize (newCache 0%N 0%N blockCacheSize)
      [(5%N, 50%N); (5%N, 51%N); (6%N, 60%N)] = Some c ∧
    Z.of_nat (size (index c)) ≤ blockCacheSize ∧
    (∀ k v, is_Some (index c !! k) → Push blockCacheSize c k v = Some c) ∧
    (∀ k v v', index c !! k = None →
       ∃ c1, Push blockCacheSize c k v = Some c1 ∧
             Lookup 0%N c1 k = Some (v, true) ∧
             Push blockCacheSize c1 k v' = Some c1 ∧
             Lookup 0%N c1 k = Some (v, true)).
Proof.
  apply (bounded_cache_push_idempotent 0%N 0%N blockCacheSize).
  apply list_elem_of_further, list_elem_of_further, list_elem_of_here.
Defined.

(** The block cache on a short run: the second [Push] of key 5 is ignored
    and key 6 goes to the next slot. *)
Example blockCache_run :
  (pushAll blockCacheSize (newCache 0%N 0%N blockCacheSize)
     [(5%N, 50%N); (5%N, 51%N); (6%N, 60%N)]
   ≫= λ c, Lookup 0%N c 5%N ≫= λ r, Some (r, tip c))
  = Some ((50%N, true), 2).
Proof. vm_compute. reflexivity. Qed.

End CacheFacts.

(** ** The transaction pool *)

Module PoolFacts.
Import Pool.

Local Open Scope N_scope.

Section admission_facts.
Variable setIDOf : list Transaction → TransactionSetID.
Variable EncodedLen : list Transaction → Z.
Variable isStandardTransactionSet : list Transaction → string + N.
Variable TransactionPoolSizeForFee : Z.
Variable requiredFeesToExtendTpoolAtSize : Z → Currency.

Local Abbreviation requiredFeesToExtendTpool :=
  (requiredFeesToExtendTpool TransactionPoolSizeForFee
     requiredFeesToExtendTpoolAtSize).
Local Abbreviation checkTransactionSetComposition :=
  (checkTransactionSetComposition setIDOf isStandardTransactionSet).
Local Abbreviation checkMinerFees :=
  (checkMinerFees TransactionPoolSizeForFee requiredFeesToExtendTpoolAtSize).
Local Abbreviation evict := (evict EncodedLen).
Local Abbreviation install := (install setIDOf EncodedLen).
Local Abbreviation mergeConflicts :=
  (mergeConflicts setIDOf EncodedLen isStandardTransactionSet
     TransactionPoolSizeForFee requiredFeesToExtendTpoolAtSize).
Local Abbreviation handleConflicts :=
  (handleConflicts setIDOf EncodedLen isStandardTransactionSet
     TransactionPoolSizeForFee requiredFeesToExtendTpoolAtSize).
Local Abbreviation acceptTransactionSet :=
  (acceptTransactionSet setIDOf EncodedLen isStandardTransactionSet
     TransactionPoolSizeForFee requiredFeesToExtendTpoolAtSize).

Implicit Types (tp : TransactionPool) (ts : list Transaction)
  (t : Transaction) (sch : schedule) (txnFn : validator)
  (conflicts : list TransactionSetID)
  (cm : gmap TransactionID TransactionSetID).

(** *** Related objects and conflicts *)

Lemma elem_of_oidMap_acc ts (acc : gset ObjectID) oid :
  oid ∈ foldl (λ m t, foldl (λ m oid, {[oid]} ∪ m) m (txnObjects t)) acc ts
  ↔ oid ∈ acc ∨ ∃ t, t ∈ ts ∧ oid ∈ txnObjects t.
Proof.
  revert acc. induction ts as [|t ts IH]; intros acc; simpl.
  - split; [by left|]. intros [?|(t & Ht & _)]; [done|].
    by apply elem_of_nil in Ht.
  - rewrite IH.
    assert (∀ (l : list ObjectID) (a : gset ObjectID),
      oid ∈ foldl (λ m o, {[o]} ∪ m) a l ↔ oid ∈ a ∨ oid ∈ l) as Hin.
    { induction l as [|o l IHl]; intros a; simpl.
      - split; [by left|]. intros [?|Hl]; [done|]. by apply elem_of_nil in Hl.
      - rewrite IHl, elem_of_union, elem_of_singleton, elem_of_cons.
        tauto. }
    rewrite Hin. split.
    + intros [[?|?]|(t' & Ht' & Ho)].
      * by left.
      * right. exists t. split; [apply list_elem_of_here|done].
      * right. exists t'. split; [by apply list_elem_of_further|done].
    + intros [?|(t' & Ht' & Ho)]; [by left; left|].
      apply elem_of_cons in Ht' as [->|Ht'].
      * left. by right.
      * right. by exists t'.
Qed.

Lemma elem_of_oidMap ts oid :
  oid ∈ oidMap ts ↔ ∃ t, t ∈ ts ∧ oid ∈ txnObjects t.
Proof.
  unfold oidMap. rewrite elem_of_oidMap_acc. split; [|by right].
  intros [Hemp|?]; [|done]. by apply not_elem_of_empty in Hemp.
Qed.

Lemma elem_of_relatedObjectIDs (it : iteration) ts oid :
  oid ∈ relatedObjectIDs it ts ↔ oid ∈ oidMap ts.
Proof.
  unfold relatedObjectIDs. rewrite (visit_perm it). apply elem_of_elements.
Qed.

Lemma NoDup_visit (it : iteration) (X : gset N) : NoDup (it X).
Proof. rewrite (visit_perm it). apply NoDup_elements. Qed.

Lemma elem_of_visit (it : iteration) (X : gset N) x : x ∈ it X ↔ x ∈ X.
Proof. rewrite (visit_perm it). apply elem_of_elements. Qed.

Lemma elem_of_lookupConflicts tp oids c :
  c ∈ lookupConflicts tp oids ↔
  ∃ oid, oid ∈ oids ∧ knownObjects tp !! oid = Some c.
Proof. unfold lookupConflicts. apply list_elem_of_omap. Qed.

(** *** The conflict map *)

Lemma conflictMap_set_lookup (l : list Transaction) cm c i :
  foldl (λ m x, <[ID x := c]> m) cm l !! i =
  if decide (i ∈ ID <$> l) then Some c else cm !! i.
Proof.
  revert cm. induction l as [|x l IH]; intros cm; cbn [foldl].
  - case_decide as Hd; [|done]. by apply elem_of_nil in Hd.
  - rewrite IH, fmap_cons.
    destruct (decide (i ∈ ID <$> l)) as [Hl|Hl].
    + rewrite decide_True; [done|]. by apply list_elem_of_further.
    + destruct (decide (ID x = i)) as [Hx|Hx].
      * rewrite decide_True by (subst i; apply list_elem_of_here).
        subst i. apply lookup_insert_eq.
      * rewrite lookup_insert_ne by done. rewrite decide_False; [done|].
        intros Hi. apply elem_of_cons in Hi as [->|Hi]; done.
Qed.

(** An entry of the conflict map names a listed conflict that holds a
    transaction with that identifier. *)
Lemma buildConflictMap_Some tp conflicts i c :
  buildConflictMap tp conflicts !! i = Some c →
  c ∈ conflicts ∧ ∃ t, t ∈ setOf tp c ∧ ID t = i.
Proof.
  unfold buildConflictMap.
  assert (∀ cm, foldl (λ m conflict,
             foldl (λ m x, <[ID x := conflict]> m) m (setOf tp conflict))
             cm conflicts !! i = Some c →
           cm !! i = Some c ∨
           (c ∈ conflicts ∧ ∃ t, t ∈ setOf tp c ∧ ID t = i)) as Hgen.
  { induction conflicts as [|c0 cs IH]; intros cm; simpl; [by left|].
    intros Hi. apply IH in Hi as [Hi|(Hc & Ht)].
    - rewrite conflictMap_set_lookup in Hi. case_decide as Hd.
      + injection Hi as <-. right. split; [apply list_elem_of_here|].
        apply list_elem_of_fmap in Hd as (t & -> & Ht). by exists t.
      + by left.
    - right. split; [by apply list_elem_of_further|done]. }
  intros Hi. apply Hgen in Hi as [Hi|?]; [|done].
  by rewrite lookup_empty in Hi.
Qed.

(** The keys of the conflict map are the identifiers of the transactions
    of the listed conflicts. *)
Lemma buildConflictMap_None tp conflicts i :
  buildConflictMap tp conflicts !! i = None ↔
  ∀ c t, c ∈ conflicts → t ∈ setOf tp c → ID t ≠ i.
Proof.
  unfold buildConflictMap.
  assert (∀ cm, foldl (λ m conflict,
             foldl (λ m x, <[ID x := conflict]> m) m (setOf tp conflict))
             cm conflicts !! i = None ↔
           cm !! i = None ∧
           ∀ c t, c ∈ conflicts → t ∈ setOf tp c → ID t ≠ i) as Hgen.
  { induction conflicts as [|c0 cs IH]; intros cm; simpl.
    - split; [|tauto]. intros Hi. split; [done|]. intros c t Hc.
      by apply elem_of_nil in Hc.
    - rewrite IH, conflictMap_set_lookup. split.
      + intros [Hi Hcs]. case_decide as Hd; [done|]. split; [done|].
        intros c t Hc Ht. apply elem_of_cons in Hc as [->|Hc].
        * intros Heq. apply Hd. subst i. by apply list_elem_of_fmap_2.
        * by eapply Hcs.
      + intros [Hi Hall]. split.
        * rewrite decide_False; [done|].
          intros (t & -> & Ht)%list_elem_of_fmap.
          by eapply (Hall c0 t); [apply list_elem_of_here|..].
        * intros c t Hc. apply Hall. by apply list_elem_of_further. }
  rewrite Hgen, lookup_empty. tauto.
Qed.

Lemma supersetMap_registered tp conflicts c :
  c ∈ supersetMap (buildConflictMap tp conflicts) →
  c ∈ conflicts ∧ is_Some (transactionSets tp !! c).
Proof.
  unfold supersetMap. intros Hc. apply elem_of_map_img in Hc as [i Hi].
  apply buildConflictMap_Some in Hi as (Hc & t & Ht & _).
  split; [done|]. unfold setOf in Ht.
  destruct (transactionSets tp !! c); [by eexists|].
  by apply elem_of_nil in Ht.
Qed.

Lemma dedup_elem cm ts t :
  t ∈ dedup cm ts ↔ cm !! ID t = None ∧ t ∈ ts.
Proof.
  unfold dedup. apply (list_elem_of_filter (λ t, cm !! ID t = None)).
Qed.

Lemma dedup_sublist cm ts : dedup cm ts `sublist_of` ts.
Proof. unfold dedup. apply sublist_filter. Qed.

Lemma dedup_id cm ts :
  (∀ t, t ∈ ts → cm !! ID t = None) → dedup cm ts = ts.
Proof.
  unfold dedup. induction ts as [|t ts IH]; intros Hall; [done|].
  rewrite filter_cons_True by (apply Hall, list_elem_of_here).
  f_equal. apply IH. intros t' Ht'. by apply Hall, list_elem_of_further.
Qed.

(** *** Outcomes that leave the pool as it was *)

Lemma is_Err_not_Ok {A} (r : result A) : is_Err r → not_Ok r.
Proof. by destruct r. Qed.

Lemma mergeConflicts_unchanged sch tp cm ts txnFn r tp' :
  mergeConflicts sch tp cm ts txnFn = (r, tp') → not_Ok r → tp' = tp.
Proof.
  unfold Pool.mergeConflicts.
  destruct (checkTransactionSetComposition tp _) as [setSize|e|];
    [|by intros [= <- <-]..].
  destruct (checkMinerFees tp _ setSize) as [[]|e|];
    [|by intros [= <- <-]..].
  destruct (txnFn _) as [err|cc]; [by intros [= <- <-]|].
  by intros [= <- <-].
Qed.

Lemma handleConflicts_unchanged fuel : ∀ sch lvl tp ts conflicts txnFn r tp',
  handleConflicts fuel sch lvl tp ts conflicts txnFn = Some (r, tp') →
  not_Ok r → tp' = tp.
Proof.
  induction fuel as [|fuel IH]; intros sch lvl tp ts conflicts txnFn r tp';
    [done|].
  cbn [Pool.handleConflicts].
  case_decide; [by intros [= <- <-]|].
  case_decide; [by apply IH|].
  intros [= Hm]. by eapply mergeConflicts_unchanged.
Qed.

(** *** Termination of the recursion *)

Lemma handleConflicts_total fuel : ∀ sch lvl tp ts conflicts txnFn,
  (length ts < fuel)%nat →
  is_Some (handleConflicts fuel sch lvl tp ts conflicts txnFn).
Proof.
  induction fuel as [|fuel IH]; intros sch lvl tp ts conflicts txnFn Hlen;
    [lia|].
  cbn [Pool.handleConflicts].
  case_decide; [by eexists|].
  case_decide; [apply IH; lia|by eexists].
Qed.

Lemma handleConflicts_fuel_mono fuel : ∀ fuel' sch lvl tp ts conflicts txnFn res,
  handleConflicts fuel sch lvl tp ts conflicts txnFn = Some res →
  (fuel ≤ fuel')%nat →
  handleConflicts fuel' sch lvl tp ts conflicts txnFn = Some res.
Proof.
  induction fuel as [|fuel IH];
    intros fuel' sch lvl tp ts conflicts txnFn res; [done|].
  intros Hrun Hle. destruct fuel' as [|fuel']; [lia|].
  revert Hrun. cbn [Pool.handleConflicts].
  case_decide; [done|]. case_decide; [|done].
  intros Hrun. apply IH; [done|lia].
Qed.

Lemma acceptTransactionSet_total sch confirmed tp ts txnFn :
  is_Some (acceptTransactionSet sch confirmed tp ts txnFn).
Proof.
  unfold Pool.acceptTransactionSet.
  case_decide; [by eexists|]. case_decide; [by eexists|].
  destruct (checkTransactionSetComposition tp _) as [setSize|e|];
    [|by eexists..].
  destruct (checkMinerFees tp _ setSize) as [[]|e|]; [|by eexists..].
  case_decide; [apply handleConflicts_total; lia|].
  destruct (txnFn _); by eexists.
Qed.

Lemma acceptTransactionSet_unchanged sch confirmed tp ts txnFn r tp' :
  acceptTransactionSet sch confirmed tp ts txnFn = Some (r, tp') →
  not_Ok r → tp' = tp.
Proof.
  unfold Pool.acceptTransactionSet.
  case_decide; [by intros [= <- <-]|]. case_decide; [by intros [= <- <-]|].
  destruct (checkTransactionSetComposition tp _) as [setSize|e|];
    [|by intros [= <- <-]..].
  destruct (checkMinerFees tp _ setSize) as [[]|e|];
    [|by intros [= <- <-]..].
  case_decide; [apply handleConflicts_unchanged|].
  destruct (txnFn _); by intros [= <- <-].
Qed.

(** C1. [acceptTransactionSet] always returns, and when it returns an
    error the pool is the pool it was called on: [transactionSets],
    [knownObjects], [transactionSetDiffs], [transactionHeights] and
    [transactionListSize] are all as before. The same holds for every call
    of [handleConflicts] that returns an error. *)
Theorem acceptTransactionSet_error_atomic sch confirmed tp ts txnFn :
  (∃ r tp',
     acceptTransactionSet sch confirmed tp ts txnFn = Some (r, tp') ∧
     (is_Err r →
        tp' = tp ∧
        transactionSets tp' = transactionSets tp ∧
        knownObjects tp' = knownObjects tp ∧
        transactionSetDiffs tp' = transactionSetDiffs tp ∧
        transactionHeights tp' = transactionHeights tp ∧
        transactionListSize tp' = transactionListSize tp)) ∧
  (∀ fuel lvl conflicts r tp',
     handleConflicts fuel sch lvl tp ts conflicts txnFn = Some (r, tp') →
     is_Err r → tp' = tp).
Proof.
  split.
  - destruct (acceptTransactionSet_total sch confirmed tp ts txnFn)
      as [[r tp'] Hrun].
    exists r, tp'. split; [done|]. intros Herr.
    apply acceptTransactionSet_unchanged in Hrun as ->;
      [done|by apply is_Err_not_Ok].
  - intros fuel lvl conflicts r tp' Hrun Herr.
    eapply handleConflicts_unchanged; [done|by apply is_Err_not_Ok].
Qed.

(** *** Eviction and installation *)

Local Abbreviation bytesOf := (bytesOf EncodedLen).
Local Abbreviation poolBytes := (poolBytes EncodedLen).
Local Abbreviation sumLens := (sumLens EncodedLen).

Lemma bytesOf_insert (sets : gmap TransactionSetID (list Transaction)) k ts :
  sets !! k = None →
  bytesOf (<[k := ts]> sets) = (EncodedLen ts + bytesOf sets)%Z.
Proof.
  intros Hk. unfold Pool.bytesOf.
  rewrite map_fold_insert_L; [done| |done]. intros. lia.
Qed.

Lemma bytesOf_delete (sets : gmap TransactionSetID (list Transaction)) k ts :
  sets !! k = Some ts →
  bytesOf (delete k sets) = (bytesOf sets - EncodedLen ts)%Z.
Proof.
  intros Hk. unfold Pool.bytesOf.
  rewrite (map_fold_delete_L _ _ k ts sets); [lia| |done]. intros. lia.
Qed.

Lemma foldl_evict l : ∀ tp,
  NoDup l →
  (∀ c, c ∈ l → is_Some (transactionSets tp !! c)) →
  let tp1 := foldl evict tp l in
  (∀ k, transactionSets tp1 !! k =
        if decide (k ∈ l) then None else transactionSets tp !! k) ∧
  (∀ k, transactionSetDiffs tp1 !! k =
        if decide (k ∈ l) then None else transactionSetDiffs tp !! k) ∧
  knownObjects tp1 = knownObjects tp ∧
  transactionHeights tp1 = transactionHeights tp ∧
  blockHeight tp1 = blockHeight tp ∧
  wrap_int (transactionListSize tp1) =
    wrap_int (transactionListSize tp - sumLens tp l) ∧
  poolBytes tp1 = (poolBytes tp - sumLens tp l)%Z.
Proof.
  induction l as [|c l IH]; intros tp Hnd Hreg; cbn [foldl].
  - repeat split; try done.
    + cbn [Pool.sumLens foldr]. f_equal. lia.
    + cbn [Pool.sumLens foldr]. lia.
  - apply NoDup_cons in Hnd as [Hc Hnd].
    destruct (Hreg c) as [cs Hcs]; [apply list_elem_of_here|].
    assert (∀ c', c' ∈ l → setOf (evict tp c) c' = setOf tp c') as Hother.
    { intros c' Hc'. unfold setOf. cbn. rewrite lookup_delete_ne; [done|].
      by intros ->. }
    assert (sumLens (evict tp c) l = sumLens tp l) as Hsum.
    { unfold Pool.sumLens. clear -Hother.
      induction l as [|c' l IHl]; [done|]. cbn [foldr].
      rewrite Hother by apply list_elem_of_here.
      rewrite IHl; [done|]. intros c'' Hc''.
      by apply Hother, list_elem_of_further. }
    destruct (IH (evict tp c)) as (Hsets & Hdiffs & Hknown & Hh & Hbh & Hsz & Hpb);
      [done| |].
    { intros c' Hc'. cbn. rewrite lookup_delete_ne by (by intros ->).
      by apply Hreg, list_elem_of_further. }
    assert (setOf tp c = cs) as Hset by (unfold setOf; by rewrite Hcs).
    repeat split.
    + intros k. rewrite Hsets. cbn.
      destruct (decide (k = c)) as [->|Hne].
      * rewrite lookup_delete_eq, (decide_True (P := c ∈ c :: l))
          by apply list_elem_of_here.
        by case_decide.
      * rewrite lookup_delete_ne by done.
        destruct (decide (k ∈ l)) as [Hk|Hk].
        -- by rewrite decide_True by (by apply list_elem_of_further).
        -- rewrite decide_False; [done|].
           intros [->|Hk']%elem_of_cons; done.
    + intros k. rewrite Hdiffs. cbn.
      destruct (decide (k = c)) as [->|Hne].
      * rewrite lookup_delete_eq, (decide_True (P := c ∈ c :: l))
          by apply list_elem_of_here.
        by case_decide.
      * rewrite lookup_delete_ne by done.
        destruct (decide (k ∈ l)) as [Hk|Hk].
        -- by rewrite decide_True by (by apply list_elem_of_further).
        -- rewrite decide_False; [done|].
           intros [->|Hk']%elem_of_cons; done.
    + by rewrite Hknown.
    + by rewrite Hh.
    + by rewrite Hbh.
    + rewrite Hsz, Hsum. cbn [Pool.evict transactionListSize].
      rewrite wrap_int_sub_l. cbn [Pool.sumLens foldr]. f_equal.
      fold (sumLens tp l). lia.
    + rewrite Hpb, Hsum. unfold Pool.poolBytes at 1. cbn [Pool.evict transactionSets].
      rewrite (bytesOf_delete _ c cs) by done.
      cbn [Pool.sumLens foldr]. fold (sumLens tp l).
      unfold Pool.poolBytes. rewrite Hset. lia.
Qed.

Lemma indexObjects_lookup (known : gmap ObjectID TransactionSetID)
    (oids : list ObjectID) setID oid :
  indexObjects known oids setID !! oid =
  if decide (oid ∈ oids) then Some setID else known !! oid.
Proof.
  unfold indexObjects. revert known.
  induction oids as [|o oids IH]; intros known; cbn [foldl].
  - case_decide as Hd; [|done]. by apply elem_of_nil in Hd.
  - rewrite IH. destruct (decide (oid ∈ oids)) as [Hin|Hin].
    + by rewrite decide_True by (by apply list_elem_of_further).
    + destruct (decide (o = oid)) as [->|Hne].
      * rewrite lookup_insert_eq.
        by rewrite decide_True by apply list_elem_of_here.
      * rewrite lookup_insert_ne by done. rewrite decide_False; [done|].
        intros [->|?]%elem_of_cons; done.
Qed.

Lemma recordHeights_lookup ts : ∀ (heights : gmap TransactionID BlockHeight) h i,
  recordHeights heights h ts !! i =
  match heights !! i with
  | Some h0 => Some h0
  | None => if decide (i ∈ ID <$> ts) then Some h else None
  end.
Proof.
  unfold recordHeights.
  induction ts as [|t ts IH]; intros heights h i; cbn [foldl].
  - destruct (heights !! i); [done|].
    case_decide as Hd; [|done]. by apply elem_of_nil in Hd.
  - rewrite IH, fmap_cons.
    destruct (heights !! ID t) as [h0|] eqn:Ht.
    + destruct (heights !! i) as [h1|] eqn:Hi; [done|].
      assert (i ≠ ID t) as Hne by congruence.
      destruct (decide (i ∈ ID <$> ts)) as [Hin|Hin].
      * by rewrite decide_True by (by apply list_elem_of_further).
      * rewrite decide_False; [done|]. intros [->|?]%elem_of_cons; done.
    + destruct (decide (i = ID t)) as [->|Hne].
      * rewrite lookup_insert_eq, Ht.
        by rewrite decide_True by apply list_elem_of_here.
      * rewrite lookup_insert_ne by done.
        destruct (heights !! i) as [h1|]; [done|].
        destruct (decide (i ∈ ID <$> ts)) as [Hin|Hin].
        -- by rewrite decide_True by (by apply list_elem_of_further).
        -- rewrite decide_False; [done|]. intros [->|?]%elem_of_cons; done.
Qed.

Local Abbreviation installed := (installed setIDOf EncodedLen).

Lemma install_installed tp0 s oids cc :
  installed tp0 (install tp0 s oids cc) s oids cc.
Proof.
  split; cbn; try done.
  - intros oid. apply indexObjects_lookup.
  - intros i. apply recordHeights_lookup.
Qed.

(** *** Successful calls *)

Lemma mergeConflicts_Ok sch tp cm d txnFn s tp' :
  mergeConflicts sch tp cm d txnFn = (Ok s, tp') →
  ∃ setSize cc,
    s = mergeSuperset sch tp cm d ∧
    checkTransactionSetComposition tp s = Ok setSize ∧
    checkMinerFees tp s setSize = Ok () ∧
    txnFn s = inr cc ∧
    tp' = install (foldl evict tp (evict_order sch (supersetMap cm)))
            s (diffObjects cc) cc.
Proof.
  unfold Pool.mergeConflicts.
  destruct (checkTransactionSetComposition tp _) as [setSize|e|] eqn:Hc;
    [|done..].
  destruct (checkMinerFees tp _ setSize) as [[]|e|] eqn:Hf; [|done..].
  destruct (txnFn _) as [err|cc] eqn:Hv; [done|].
  intros [= <- <-]. by exists setSize, cc.
Qed.

Lemma dedup_no_prune cm ts :
  ¬ (length (dedup cm ts) < length ts)%nat → dedup cm ts = ts.
Proof.
  intros Hlen. apply dedup_id. intros t Ht.
  destruct (cm !! ID t) as [c|] eqn:Hc; [|done].
  exfalso. apply Hlen. unfold dedup.
  apply (length_filter_lt (λ t, cm !! ID t = None) ts t); [done|].
  by rewrite Hc.
Qed.

(** A successful [handleConflicts] ends in a call whose candidate [d] is
    pruned no further and is merged with its conflicts. *)
Lemma handleConflicts_Ok fuel : ∀ sch lvl tp ts conflicts txnFn s tp',
  handleConflicts fuel sch lvl tp ts conflicts txnFn = Some (Ok s, tp') →
  ∃ d conflicts',
    d `sublist_of` ts ∧ d ≠ [] ∧
    dedup (buildConflictMap tp conflicts') d = d ∧
    mergeConflicts sch tp (buildConflictMap tp conflicts') d txnFn
      = (Ok s, tp').
Proof.
  induction fuel as [|fuel IH]; intros sch lvl tp ts conflicts txnFn s tp';
    [done|].
  cbn [Pool.handleConflicts].
  case_decide as Hemp; [done|]. case_decide as Hlt.
  - intros Hrun. apply IH in Hrun as (d & conflicts' & Hsub & Hne & Hd & Hm).
    exists d, conflicts'. split; [|done].
    etrans; [done|]. apply dedup_sublist.
  - intros [= Hm]. apply dedup_no_prune in Hlt.
    exists ts, conflicts. rewrite Hlt in Hm, Hemp.
    repeat split; try done.
    intros ->. by apply Hemp.
Qed.

Lemma acceptTransactionSet_Ok sch confirmed tp ts txnFn s tp' :
  acceptTransactionSet sch confirmed tp ts txnFn = Some (Ok s, tp') →
  let ts' := filter (λ txn, confirmed (ID txn) = false) ts in
  let oids := relatedObjectIDs (oid_order sch 0) ts' in
  ts' ≠ [] ∧
  ∃ setSize,
    checkTransactionSetComposition tp ts' = Ok setSize ∧
    checkMinerFees tp ts' setSize = Ok () ∧
    ((lookupConflicts tp oids = [] ∧ s = ts' ∧
      ∃ cc, txnFn ts' = inr cc ∧ tp' = install tp ts' oids cc) ∨
     (lookupConflicts tp oids ≠ [] ∧
      handleConflicts (S (length ts')) sch 1 tp ts'
        (lookupConflicts tp oids) txnFn = Some (Ok s, tp'))).
Proof.
  unfold Pool.acceptTransactionSet.
  case_decide as Hemp; [done|]. case_decide as Hemp'; [done|].
  destruct (checkTransactionSetComposition tp _) as [setSize|e|] eqn:Hc;
    [|done..].
  destruct (checkMinerFees tp _ setSize) as [[]|e|] eqn:Hf; [|done..].
  intros Hrun. cbn zeta. split.
  { intros Hnil. by rewrite Hnil in Hemp'. }
  exists setSize. split; [done|]. split; [done|].
  case_decide as Hconf.
  - right. split; [|done]. intros Hnil. rewrite Hnil in Hconf.
    cbn in Hconf. lia.
  - left. destruct (txnFn _) as [err|cc] eqn:Hv; [done|].
    injection Hrun as <- <-. split.
    + destruct (lookupConflicts tp _); [done|]. cbn in Hconf. lia.
    + split; [done|]. by exists cc.
Qed.

(** *** The fee gate *)

(** The required fee is zero below [TransactionPoolSizeForFee]; from there
    on it is whatever [requiredFeesToExtendTpoolAtSize] computes for the
    size of the pool. *)
Lemma requiredFeesToExtendTpool_threshold tp :
  ((transactionListSize tp < TransactionPoolSizeForFee)%Z →
   requiredFeesToExtendTpool tp = ZeroCurrency) ∧
  ((TransactionPoolSizeForFee ≤ transactionListSize tp)%Z →
   requiredFeesToExtendTpool tp =
   requiredFeesToExtendTpoolAtSize (transactionListSize tp)).
Proof.
  unfold Pool.requiredFeesToExtendTpool.
  split; intros Hsize; case_decide; (done || lia).
Qed.

Lemma addFees_None (fees : list Currency) :
  foldl (λ acc fee, acc ≫= λ setFees, Add setFees fee) None fees = None.
Proof. by induction fees. Qed.

Lemma addFees_Some (fees : list Currency) : ∀ a,
  a < currency_limit →
  foldl (λ acc fee, acc ≫= λ setFees, Add setFees fee) (Some a) fees =
  if decide (a + foldr N.add 0 fees < currency_limit)
  then Some (a + foldr N.add 0 fees) else None.
Proof.
  induction fees as [|fee fees IH]; intros a Ha; cbn [foldl foldr].
  - rewrite N.add_0_r. by rewrite decide_True.
  - cbn [mbind option_bind]. unfold Add at 2.
    destruct (decide (a + fee < currency_limit)) as [Hlt|Hge].
    + rewrite IH by done. rewrite N.add_assoc. done.
    + rewrite addFees_None. rewrite decide_False; [done|]. lia.
Qed.

Lemma sumMinerFees_acc ts : ∀ a,
  a < currency_limit →
  foldl (λ acc txn,
           foldl (λ acc fee, acc ≫= λ setFees, Add setFees fee)
                 acc (MinerFees txn))
        (Some a) ts =
  if decide (a + totalFees ts < currency_limit)
  then Some (a + totalFees ts) else None.
Proof.
  induction ts as [|t ts IH]; intros a Ha; cbn [foldl totalFees foldr].
  - rewrite N.add_0_r. by rewrite decide_True.
  - fold (totalFees ts). rewrite addFees_Some by done.
    destruct (decide (a + foldr N.add 0 (MinerFees t) < currency_limit))
      as [Hlt|Hge].
    + rewrite IH by done. rewrite N.add_assoc. done.
    + rewrite decide_False by lia. clear.
      induction ts as [|t' ts IHts]; [done|]. cbn [foldl].
      by rewrite addFees_None.
Qed.

(** The fee loop computes the sum of all fees, and panics exactly when
    that sum is not a currency. *)
Lemma sumMinerFees_total ts :
  sumMinerFees ts =
  if decide (totalFees ts < currency_limit) then Some (totalFees ts)
  else None.
Proof.
  unfold sumMinerFees, ZeroCurrency.
  rewrite sumMinerFees_acc by (by vm_compute). done.
Qed.



(** *** Confirmed transactions *)

Lemma filter_all {A} (P : A → Prop) `{∀ x, Decision (P x)} (l : list A) :
  (∀ x, x ∈ l → P x) → filter P l = l.
Proof.
  induction l as [|x l IH]; intros Hall; [done|].
  rewrite filter_cons_True by apply Hall, list_elem_of_here.
  f_equal. apply IH. intros y Hy. by apply Hall, list_elem_of_further.
Qed.

Lemma filter_none {A} (P : A → Prop) `{∀ x, Decision (P x)} (l : list A) :
  (∀ x, x ∈ l → ¬ P x) → filter P l = [].
Proof.
  induction l as [|x l IH]; intros Hall; [done|].
  rewrite filter_cons_False by apply Hall, list_elem_of_here.
  apply IH. intros y Hy. by apply Hall, list_elem_of_further.
Qed.

(** C6. For a non-empty candidate [ts], let [ts'] be its transactions that
    [transactionConfirmed] does not report, in their order in [ts]. If
    every transaction is confirmed the call fails with
    [ErrDuplicateTransactionSet] and the pool is unchanged. Otherwise it is
    [ts'] that proceeds to admission: the call does what it does on [ts']
    with nothing confirmed; it returns the error of composition checking
    or of the fee gate on [ts'] if there is one; if there is none it hands
    [ts'] to [handleConflicts] when [ts'] has conflicts, and without
    conflicts it asks the ledger about [ts'], fails with the ledger's
    message or returns [ts'] and installs it under its identifier. A
    partly confirmed set that is not registered and has no conflicts is
    never rejected as a duplicate. *)
Theorem acceptTransactionSet_filters_confirmed
    sch confirmed tp ts txnFn :
  ts ≠ [] →
  let ts' := filter (λ txn, confirmed (ID txn) = false) ts in
  let oids := relatedObjectIDs (oid_order sch 0) ts' in
  let conflicts := lookupConflicts tp oids in
  let run := acceptTransactionSet sch confirmed tp ts txnFn in
  (∀ t, t ∈ ts' ↔ confirmed (ID t) = false ∧ t ∈ ts) ∧
  ts' `sublist_of` ts ∧
  ((∀ t, t ∈ ts → confirmed (ID t) = true) →
   run = Some (Err ErrDuplicateTransactionSet, tp)) ∧
  ((∃ t, t ∈ ts ∧ confirmed (ID t) = false) →
   run = acceptTransactionSet sch (λ _, false) tp ts' txnFn ∧
   (∀ s tp',
      run = Some (Ok s, tp') → conflicts = [] →
      s = ts' ∧ transactionSets tp' !! setIDOf ts' = Some ts') ∧
   (∀ e, checkTransactionSetComposition tp ts' = Err e →
         run = Some (Err e, tp)) ∧
   (∀ setSize e,
      checkTransactionSetComposition tp ts' = Ok setSize →
      checkMinerFees tp ts' setSize = Err e →
      run = Some (Err e, tp)) ∧
   (∀ setSize,
      checkTransactionSetComposition tp ts' = Ok setSize →
      checkMinerFees tp ts' setSize = Ok () →
      (conflicts ≠ [] →
       run = handleConflicts (S (length ts')) sch 1 tp ts' conflicts txnFn) ∧
      (conflicts = [] → ∀ err, txnFn ts' = inl err →
       run = Some (Err (ConsensusConflict
                          (String.append PoolMessages.invalid_prefix err)),
                   tp)) ∧
      (conflicts = [] → ∀ cc, txnFn ts' = inr cc →
       run = Some (Ok ts', install tp ts' oids cc) ∧
       transactionSets (install tp ts' oids cc) !! setIDOf ts' = Some ts')) ∧
   (transactionSets tp !! setIDOf ts' = None → conflicts = [] →
    ∀ tp', run ≠ Some (Err ErrDuplicateTransactionSet, tp'))).
Proof.
  intros Hne ts' oids conflicts run. split.
  { intros t. apply (list_elem_of_filter (λ txn, confirmed (ID txn) = false)). }
  split; [apply sublist_filter|].
  assert (length ts ≠ 0%nat) as Hlen by by destruct ts.
  split.
  - intros Hall. unfold run, Pool.acceptTransactionSet.
    rewrite decide_False by done. fold ts'.
    assert (ts' = []) as ->.
    { apply filter_none. intros t Ht. by rewrite (Hall t Ht). }
    by rewrite decide_True.
  - intros (t & Ht & Hconf).
    assert (t ∈ ts') as Hin.
    { by apply (list_elem_of_filter (λ txn, confirmed (ID txn) = false)). }
    assert (length ts' ≠ 0%nat) as Hlen'.
    { destruct ts'; [by apply elem_of_nil in Hin|done]. }
    assert (conflicts = [] → ¬ (0 < length conflicts)%nat) as Hfree.
    { intros ->. cbn. lia. }
    assert (conflicts ≠ [] → (0 < length conflicts)%nat) as Hbusy.
    { destruct conflicts; [done|]. cbn. lia. }
    split.
    { unfold run, Pool.acceptTransactionSet. fold ts'.
      rewrite (filter_all (λ txn, false = false) ts') by done.
      by rewrite !(decide_False (P := length _ = 0%nat)) by done. }
    split.
    { intros s tp' Hrun Hnil.
      apply acceptTransactionSet_Ok in Hrun
        as (_ & setSize & _ & _ & [(_ & -> & cc & _ & ->)|[Hc _]]).
      - split; [done|]. cbn. apply lookup_insert_eq.
      - done. }
    split.
    { intros e Hc. unfold run, Pool.acceptTransactionSet. fold ts'.
      rewrite !(decide_False (P := length _ = 0%nat)) by done.
      by rewrite Hc. }
    split.
    { intros setSize e Hc Hf. unfold run, Pool.acceptTransactionSet.
      fold ts'. rewrite !(decide_False (P := length _ = 0%nat)) by done.
      by rewrite Hc, Hf. }
    split.
    { intros setSize Hc Hf.
      assert (run =
              if decide (0 < length conflicts)%nat
              then handleConflicts (S (length ts')) sch 1 tp ts' conflicts
                     txnFn
              else match txnFn ts' with
                   | inl err =>
                       Some (Err (ConsensusConflict
                                    (String.append PoolMessages.invalid_prefix
                                       err)), tp)
                   | inr cc => Some (Ok ts', install tp ts' oids cc)
                   end) as Hrun.
      { unfold run, Pool.acceptTransactionSet. fold ts'.
        rewrite !(decide_False (P := length _ = 0%nat)) by done.
        by rewrite Hc, Hf. }
      split; [|split].
      - intros Hconf'. rewrite Hrun. by rewrite decide_True by auto.
      - intros Hnil err Hv. rewrite Hrun.
        rewrite decide_False by auto. by rewrite Hv.
      - intros Hnil cc Hv. rewrite Hrun.
        rewrite decide_False by auto. rewrite Hv. split; [done|].
        cbn. apply lookup_insert_eq. }
    intros Hfresh Hnil tp'. unfold run, Pool.acceptTransactionSet. fold ts'.
    rewrite !(decide_False (P := length _ = 0%nat)) by done.
    unfold Pool.checkTransactionSetComposition. rewrite Hfresh.
    destruct (isStandardTransactionSet ts') as [msg|setSize]; [done|].
    unfold Pool.checkMinerFees.
    destruct (Mul64 _ _) as [requiredFees|]; [|done].
    destruct (sumMinerFees ts') as [setFees|]; [|done].
    case_decide; [done|]. fold oids. fold conflicts.
    rewrite decide_False by auto.
    by destruct (txnFn ts').
Qed.

(** *** Depth of the recursion *)

(** The conflict list that [acceptTransactionSet] and the recursive call
    compute names the owner of every known object related to the set. *)
Lemma lookupConflicts_complete (it : iteration) tp ts oid c :
  oid ∈ oidMap ts → knownObjects tp !! oid = Some c →
  c ∈ lookupConflicts tp (relatedObjectIDs it ts).
Proof.
  intros Hoid Hc. apply elem_of_lookupConflicts. exists oid.
  split; [|done]. by apply elem_of_relatedObjectIDs.
Qed.

Lemma oidMap_dedup cm ts oid : oid ∈ oidMap (dedup cm ts) → oid ∈ oidMap ts.
Proof.
  rewrite !elem_of_oidMap. intros (t & Ht & Ho). exists t.
  split; [|done]. by apply dedup_elem in Ht as [_ ?].
Qed.

(** The conflicts recomputed for the remainder of a candidate are among
    the conflicts of the candidate, so the remainder holds none of their
    transactions. *)
Lemma dedup_recomputed (it : iteration) tp ts conflicts :
  (∀ oid c, oid ∈ oidMap ts → knownObjects tp !! oid = Some c →
            c ∈ conflicts) →
  let d := dedup (buildConflictMap tp conflicts) ts in
  let conflicts' := lookupConflicts tp (relatedObjectIDs it d) in
  (∀ c, c ∈ conflicts' → c ∈ conflicts) ∧
  dedup (buildConflictMap tp conflicts') d = d.
Proof.
  intros Hcomplete d conflicts'.
  assert (∀ c, c ∈ conflicts' → c ∈ conflicts) as Hsub.
  { intros c (oid & Hoid & Hc)%elem_of_lookupConflicts.
    apply elem_of_relatedObjectIDs, oidMap_dedup in Hoid.
    by eapply Hcomplete. }
  split; [done|].
  apply dedup_id. intros t [Hnone _]%dedup_elem.
  apply buildConflictMap_None. intros c t' Hc Ht'.
  eapply buildConflictMap_None; [done|by apply Hsub|done].
Qed.

(** [handleConflicts] on the conflict list of its caller, without the
    recursion: the candidate is pruned once, the conflicts are looked up
    again when something was pruned, and the remainder is merged with
    them. *)
Lemma handleConflicts_complete fuel sch lvl tp ts conflicts txnFn res :
  (∀ oid c, oid ∈ oidMap ts → knownObjects tp !! oid = Some c →
            c ∈ conflicts) →
  handleConflicts fuel sch lvl tp ts conflicts txnFn = Some res →
  let d := dedup (buildConflictMap tp conflicts) ts in
  let conflicts' :=
    if decide (length d < length ts)%nat
    then lookupConflicts tp (relatedObjectIDs (oid_order sch lvl) d)
    else conflicts in
  if decide (d = []) then res = (Err ErrDuplicateTransactionSet, tp)
  else res = mergeConflicts sch tp (buildConflictMap tp conflicts') d txnFn.
Proof.
  intros Hcomplete Hrun d conflicts'.
  destruct fuel as [|fuel]; [done|].
  revert Hrun. cbn [Pool.handleConflicts]. fold d.
  case_decide as Hemp.
  - intros [= <-]. rewrite decide_True; [done|]. by destruct d.
  - rewrite (decide_False (P := d = []))
      by (intros Hd; by rewrite Hd in Hemp).
    unfold conflicts'. case_decide as Hlt; [|by intros [= <-]].
    destruct (dedup_recomputed (oid_order sch lvl) tp ts conflicts Hcomplete)
      as [_ Hid].
    fold d in Hid.
    destruct fuel as [|fuel]; [done|].
    cbn [Pool.handleConflicts]. rewrite Hid.
    rewrite decide_False by done. rewrite decide_False by lia.
    by intros [= <-].
Qed.

(** C3. Let [conflicts] name the owner of every known object related to
    the candidate [ts] (as the list computed by [acceptTransactionSet]
    does). If the first deduplication leaves the remainder [d], then no
    transaction of [d] has the identifier of a transaction of a recomputed
    conflicting set, the second deduplication returns [d] itself, and
    [handleConflicts] returns within two nested calls: fuel 2 is enough,
    and any larger fuel gives the same result. *)
Theorem handleConflicts_recursion_depth sch lvl tp ts conflicts txnFn :
  (∀ oid c, oid ∈ oidMap ts → knownObjects tp !! oid = Some c →
            c ∈ conflicts) →
  let d := dedup (buildConflictMap tp conflicts) ts in
  let conflicts' :=
    lookupConflicts tp (relatedObjectIDs (oid_order sch lvl) d) in
  (∀ t c t', t ∈ d → c ∈ conflicts' → t' ∈ setOf tp c → ID t' ≠ ID t) ∧
  dedup (buildConflictMap tp conflicts') d = d ∧
  ∃ res,
    handleConflicts 2 sch lvl tp ts conflicts txnFn = Some res ∧
    ∀ fuel, (2 ≤ fuel)%nat →
      handleConflicts fuel sch lvl tp ts conflicts txnFn = Some res.
Proof.
  intros Hcomplete d conflicts'.
  assert (∀ c, c ∈ conflicts' → c ∈ conflicts) as Hsub.
  { intros c (oid & Hoid & Hc)%elem_of_lookupConflicts.
    apply elem_of_relatedObjectIDs, oidMap_dedup in Hoid.
    by eapply Hcomplete. }
  assert (∀ t c t', t ∈ d → c ∈ conflicts' → t' ∈ setOf tp c →
                    ID t' ≠ ID t) as Hfresh.
  { intros t c t' [Hnone _]%dedup_elem Hc Ht'.
    eapply buildConflictMap_None; [done|by apply Hsub|done]. }
  assert (dedup (buildConflictMap tp conflicts') d = d) as Hid.
  { apply dedup_id. intros t Ht. apply buildConflictMap_None.
    intros c t' Hc Ht'. by eapply Hfresh. }
  split; [done|]. split; [done|].
  assert (∃ res, handleConflicts 2 sch lvl tp ts conflicts txnFn = Some res)
    as [res Hres].
  { cbn [Pool.handleConflicts]. fold d. fold conflicts'.
    case_decide as Hemp; [by eexists|].
    case_decide as Hlt; [|by eexists].
    rewrite Hid. rewrite decide_False by done.
    rewrite decide_False by lia. by eexists. }
  exists res. split; [done|]. intros fuel Hfuel.
  by eapply handleConflicts_fuel_mono.
Qed.

(** *** The size of the pool *)

Lemma checkTransactionSetComposition_fresh tp ts setSize :
  checkTransactionSetComposition tp ts = Ok setSize →
  transactionSets tp !! setIDOf ts = None ∧
  isStandardTransactionSet ts = inr setSize.
Proof.
  unfold Pool.checkTransactionSetComposition.
  destruct (transactionSets tp !! setIDOf ts); [done|].
  destruct (isStandardTransactionSet ts); [done|]. by intros [= ->].
Qed.

Local Abbreviation replaced := (replaced setIDOf EncodedLen).

Lemma mergeConflicts_replaced sch tp cm d txnFn s tp' :
  mergeConflicts sch tp cm d txnFn = (Ok s, tp') →
  (∀ c, c ∈ supersetMap cm → is_Some (transactionSets tp !! c)) →
  replaced tp tp' (evict_order sch (supersetMap cm)) s.
Proof.
  intros (setSize & cc & Hs & Hc & _ & _ & ->)%mergeConflicts_Ok Hreg.
  apply checkTransactionSetComposition_fresh in Hc as [Hfresh _].
  set (ev := evict_order sch (supersetMap cm)).
  assert (NoDup ev) as Hnd by apply NoDup_visit.
  assert (∀ c, c ∈ ev → is_Some (transactionSets tp !! c)) as Hev.
  { intros c Hin. apply Hreg. by apply elem_of_visit in Hin. }
  destruct (foldl_evict ev tp Hnd Hev)
    as (Hsets & _ & _ & _ & _ & Hsz & Hpb).
  assert (transactionSets (foldl evict tp ev) !! setIDOf s = None) as Hfresh1.
  { rewrite Hsets. by case_decide. }
  split; try done.
  - intros k. cbn. destruct (decide (k = setIDOf s)) as [->|Hne].
    + by rewrite lookup_insert_eq.
    + rewrite lookup_insert_ne by done. apply Hsets.
  - cbn. rewrite <- wrap_int_add_l, Hsz, wrap_int_add_l. done.
  - unfold Pool.poolBytes at 1. cbn.
    rewrite bytesOf_insert by done. fold (poolBytes (foldl evict tp ev)).
    rewrite Hpb. lia.
Qed.

Lemma handleConflicts_replaced fuel sch lvl tp ts conflicts txnFn s tp' :
  handleConflicts fuel sch lvl tp ts conflicts txnFn = Some (Ok s, tp') →
  ∃ evicted, replaced tp tp' evicted s.
Proof.
  intros (d & conflicts' & _ & _ & _ & Hm)%handleConflicts_Ok.
  eexists. eapply mergeConflicts_replaced; [done|].
  intros c Hc. by apply supersetMap_registered in Hc as [_ ?].
Qed.

Lemma acceptTransactionSet_replaced sch confirmed tp ts txnFn s tp' :
  acceptTransactionSet sch confirmed tp ts txnFn = Some (Ok s, tp') →
  ∃ evicted, replaced tp tp' evicted s.
Proof.
  intros Hrun. apply acceptTransactionSet_Ok in Hrun
    as (_ & setSize & Hc & _ & [(_ & -> & cc & _ & ->)|[_ Hh]]).
  - apply checkTransactionSetComposition_fresh in Hc as [Hfresh _].
    exists []. split; try done.
    + apply NoDup_nil_2.
    + intros c Hin. by apply elem_of_nil in Hin.
    + intros k. cbn. destruct (decide (k = setIDOf _)) as [->|Hne].
      * by rewrite lookup_insert_eq.
      * rewrite lookup_insert_ne by done. by rewrite decide_False
          by apply not_elem_of_nil.
    + cbn. f_equal. lia.
    + unfold Pool.poolBytes at 1. cbn. rewrite bytesOf_insert by done.
      unfold Pool.poolBytes. lia.
  - by eapply handleConflicts_replaced.
Qed.

Lemma replaced_invariant tp tp' evicted s :
  replaced tp tp' evicted s →
  transactionListSize tp = wrap_int (poolBytes tp) →
  transactionListSize tp' = wrap_int (poolBytes tp').
Proof.
  intros [_ _ _ _ Hsz Hpb] Hinv. rewrite Hsz, Hpb, Hinv.
  replace (wrap_int (poolBytes tp) - sumLens tp evicted + EncodedLen s)%Z
    with (wrap_int (poolBytes tp) + (- sumLens tp evicted + EncodedLen s))%Z
    by lia.
  rewrite wrap_int_add_l. f_equal. lia.
Qed.

Lemma reachable_invariant tp :
  reachable setIDOf EncodedLen isStandardTransactionSet
    TransactionPoolSizeForFee requiredFeesToExtendTpoolAtSize tp →
  transactionListSize tp = wrap_int (poolBytes tp).
Proof.
  induction 1 as [h|tp sch confirmed ts txnFn s tp' _ IH Hrun].
  - unfold Pool.poolBytes, Pool.bytesOf. cbn. by rewrite map_fold_empty.
  - apply acceptTransactionSet_replaced in Hrun as [evicted Hrep].
    by eapply replaced_invariant.
Qed.

(** *** The merged superset *)

(** A successful [handleConflicts] ends in a call whose candidate [d] is
    pruned no further; the transactions of [ts] that are not in [d] were
    pruned because a pool set holds a transaction with their identifier. *)
Lemma handleConflicts_remainder fuel : ∀ sch lvl tp ts conflicts txnFn s tp',
  handleConflicts fuel sch lvl tp ts conflicts txnFn = Some (Ok s, tp') →
  ∃ d conflicts',
    d `sublist_of` ts ∧ d ≠ [] ∧
    dedup (buildConflictMap tp conflicts') d = d ∧
    (∀ t, t ∈ ts → t ∈ d ∨ ∃ c t', t' ∈ setOf tp c ∧ ID t' = ID t) ∧
    mergeConflicts sch tp (buildConflictMap tp conflicts') d txnFn
      = (Ok s, tp').
Proof.
  induction fuel as [|fuel IH]; intros sch lvl tp ts conflicts txnFn s tp';
    [done|].
  cbn [Pool.handleConflicts].
  case_decide as Hemp; [done|]. case_decide as Hlt.
  - intros Hrun.
    apply IH in Hrun as (d & conflicts' & Hsub & Hne & Hd & Hkept & Hm).
    exists d, conflicts'.
    split; [etrans; [done|apply dedup_sublist]|].
    do 2 (split; [done|]). split; [|done].
    intros t Ht.
    destruct (buildConflictMap tp conflicts !! ID t) as [c|] eqn:Hc.
    + right. apply buildConflictMap_Some in Hc as (_ & t' & Ht' & Hid).
      by exists c, t'.
    + apply Hkept. by apply dedup_elem.
  - intros [= Hm]. apply dedup_no_prune in Hlt.
    exists ts, conflicts. rewrite Hlt in Hm, Hemp.
    split; [done|]. split; [intros ->; by apply Hemp|].
    split; [done|]. split; [|done]. intros t Ht. by left.
Qed.

(** The set that a successful [handleConflicts] returns: whole pool sets,
    each named once, then the remainder [d] of the candidate. *)
Lemma handleConflicts_superset fuel sch lvl tp ts conflicts txnFn s tp' :
  handleConflicts fuel sch lvl tp ts conflicts txnFn = Some (Ok s, tp') →
  ∃ merged d,
    s = concat (setOf tp <$> merged) ++ d ∧
    NoDup merged ∧
    (∀ c, c ∈ merged → is_Some (transactionSets tp !! c)) ∧
    d `sublist_of` ts ∧ d ≠ [] ∧
    (∀ i j a b,
       (i < length (concat (setOf tp <$> merged)))%nat →
       (length (concat (setOf tp <$> merged)) ≤ j)%nat →
       s !! i = Some a → s !! j = Some b →
       (i < j)%nat ∧ a ∈ concat (setOf tp <$> merged) ∧ b ∈ d) ∧
    (∀ c, c ∈ merged → setOf tp c ≠ []) ∧
    (∀ t c t', t ∈ d → c ∈ merged → t' ∈ setOf tp c → ID t' ≠ ID t) ∧
    (∀ t, t ∈ ts → t ∈ d ∨ ∃ c t', t' ∈ setOf tp c ∧ ID t' = ID t) ∧
    ∃ conflicts',
      merged = merge_order sch (supersetMap (buildConflictMap tp conflicts')) ∧
      dedup (buildConflictMap tp conflicts') d = d.
Proof.
  intros (d & conflicts' & Hsub & Hne & Hd & Hkept & Hm)%handleConflicts_remainder.
  apply mergeConflicts_Ok in Hm as (sz & cc & -> & _).
  set (cm := buildConflictMap tp conflicts') in *.
  exists (merge_order sch (supersetMap cm)), d.
  split; [done|]. split; [apply NoDup_visit|]. split.
  { intros c Hin%elem_of_visit.
    by apply supersetMap_registered in Hin as [_ ?]. }
  do 2 (split; [done|]). split.
  { intros i j a b Hi Hj Ha Hb. unfold mergeSuperset in Ha, Hb.
    fold cm in Ha, Hb. split; [lia|]. split.
    - rewrite lookup_app_l in Ha by done. by eapply list_elem_of_lookup_2.
    - rewrite lookup_app_r in Hb by done. by eapply list_elem_of_lookup_2. }
  split.
  { intros c Hin%elem_of_visit. unfold supersetMap in Hin.
    apply elem_of_map_img in Hin as [i Hi].
    apply buildConflictMap_Some in Hi as (_ & t & Ht & _).
    intros Hnil. rewrite Hnil in Ht. by apply elem_of_nil in Ht. }
  split.
  { intros t c t' Ht Hin%elem_of_visit Ht'.
    apply supersetMap_registered in Hin as [Hin _].
    rewrite <- Hd in Ht. apply dedup_elem in Ht as [Hnone _].
    by eapply (proj1 (buildConflictMap_None tp conflicts' (ID t)) Hnone c t'). }
  split; [done|]. by exists conflicts'.
Qed.

(** The same set when [conflicts] is the list that the caller computes:
    the remainder is the candidate without the transactions of the
    conflicts, and the merged sets are the conflicts of the remainder. *)
Lemma handleConflicts_superset_complete
    fuel sch lvl tp ts conflicts txnFn s tp' :
  (∀ oid c, oid ∈ oidMap ts → knownObjects tp !! oid = Some c →
            c ∈ conflicts) →
  handleConflicts fuel sch lvl tp ts conflicts txnFn = Some (Ok s, tp') →
  let d := dedup (buildConflictMap tp conflicts) ts in
  let conflicts' :=
    if decide (length d < length ts)%nat
    then lookupConflicts tp (relatedObjectIDs (oid_order sch lvl) d)
    else conflicts in
  d ≠ [] ∧
  s = concat (setOf tp <$>
                merge_order sch (supersetMap (buildConflictMap tp conflicts')))
      ++ d.
Proof.
  intros Hcomplete Hrun d conflicts'.
  pose proof (handleConflicts_complete _ _ _ _ _ _ _ _ Hcomplete Hrun)
    as Hform.
  cbn zeta in Hform. fold d in Hform. fold conflicts' in Hform.
  destruct (decide (d = [])) as [Hd|Hd]; [done|]. split; [done|].
  symmetry in Hform.
  by apply mergeConflicts_Ok in Hform as (sz & cc & -> & _).
Qed.

(** *** What a successful call installs *)

Lemma installed_lookup tp0 tp' s oids cc :
  installed tp0 tp' s oids cc →
  transactionSets tp' !! setIDOf s = Some s ∧
  transactionSetDiffs tp' !! setIDOf s = Some cc ∧
  (∀ oid, oid ∈ oids → knownObjects tp' !! oid = Some (setIDOf s)) ∧
  (∀ oid, oid ∉ oids → knownObjects tp' !! oid = knownObjects tp0 !! oid).
Proof.
  intros [Hs Hd Ho _ _ _].
  split; [by rewrite Hs, lookup_insert_eq|].
  split; [by rewrite Hd, lookup_insert_eq|].
  split; intros oid Hoid; rewrite Ho.
  - by rewrite decide_True.
  - by rewrite decide_False.
Qed.

(** C4. Let the ledger keep its contract for the admitted set [s]: the
    change [cc] it returns names only objects that [s] spends or creates.
    After a successful [acceptTransactionSet] that returns [s], on both
    paths: [s] is in [transactionSets] and [cc] in [transactionSetDiffs]
    under the identifier of [s]; every object of the three diff lists of
    [cc] is mapped to that identifier in [knownObjects], and the objects
    that [s] does not touch are mapped as before;
    [transactionListSize] is the size of the pool [tp0] left by the removal
    of the conflicts plus the encoded length of [s]; and
    [transactionHeights] has the current height for exactly the
    transactions of [s] that had no entry, all other entries being as
    before. The pool [tp0] is the pool of the call without the sets
    [evicted], which are distinct registered conflicts, and with nothing
    else changed but the byte count. On the conflict-free path nothing is
    removed, [s] is the unconfirmed part of the candidate and the indexed
    objects are its related objects; on the conflict path the removed sets
    are the sets of [supersetMap], [s] is the merged superset and the
    indexed objects are those of the diff. *)
Theorem acceptTransactionSet_installs sch confirmed tp ts txnFn s tp' :
  (∀ cc oid, txnFn s = inr cc → oid ∈ diffObjects cc → oid ∈ oidMap s) →
  acceptTransactionSet sch confirmed tp ts txnFn = Some (Ok s, tp') →
  let ts' := filter (λ txn, confirmed (ID txn) = false) ts in
  let conflicts :=
    lookupConflicts tp (relatedObjectIDs (oid_order sch 0) ts') in
  ∃ cc evicted oids,
    txnFn s = inr cc ∧
    let tp0 := foldl evict tp evicted in
    installed tp0 tp' s oids cc ∧
    transactionSets tp' !! setIDOf s = Some s ∧
    transactionSetDiffs tp' !! setIDOf s = Some cc ∧
    (∀ oid, oid ∈ diffObjects cc →
            knownObjects tp' !! oid = Some (setIDOf s)) ∧
    (∀ oid, oid ∉ oidMap s →
            knownObjects tp' !! oid = knownObjects tp !! oid) ∧
    transactionListSize tp' =
      wrap_int (transactionListSize tp0 + EncodedLen s) ∧
    (∀ i, transactionHeights tp' !! i =
          match transactionHeights tp !! i with
          | Some h0 => Some h0
          | None =>
              if decide (i ∈ ID <$> s) then Some (blockHeight tp) else None
          end) ∧
    NoDup evicted ∧
    (∀ c, c ∈ evicted →
          c ∈ conflicts ∧ is_Some (transactionSets tp !! c)) ∧
    (∀ k, transactionSets tp0 !! k =
          if decide (k ∈ evicted) then None else transactionSets tp !! k) ∧
    (∀ k, transactionSetDiffs tp0 !! k =
          if decide (k ∈ evicted) then None
          else transactionSetDiffs tp !! k) ∧
    knownObjects tp0 = knownObjects tp ∧
    transactionHeights tp0 = transactionHeights tp ∧
    blockHeight tp0 = blockHeight tp ∧
    wrap_int (transactionListSize tp0) =
      wrap_int (transactionListSize tp - sumLens tp evicted) ∧
    ((conflicts = [] ∧ evicted = [] ∧ s = ts' ∧
      oids = relatedObjectIDs (oid_order sch 0) ts') ∨
     (conflicts ≠ [] ∧ oids = diffObjects cc ∧
      let d := dedup (buildConflictMap tp conflicts) ts' in
      let conflicts' :=
        if decide (length d < length ts')%nat
        then lookupConflicts tp (relatedObjectIDs (oid_order sch 1) d)
        else conflicts in
      let cm := buildConflictMap tp conflicts' in
      evicted = evict_order sch (supersetMap cm) ∧
      s = mergeSuperset sch tp cm d)).
Proof.
  intros Hcontract Hrun ts' conflicts.
  apply acceptTransactionSet_Ok in Hrun
    as (_ & setSize & Hc & _ & [(Hnil & -> & cc & Hv & ->)|[Hne Hh]]).
  - fold ts' in Hv, Hcontract |- *.
    set (oids := relatedObjectIDs (oid_order sch 0) ts').
    pose proof (install_installed tp ts' oids cc) as Hinst.
    destruct (installed_lookup _ _ _ _ _ Hinst) as (Hs & Hd & Hin & Hout).
    exists cc, [], oids. split; [done|]. cbn [foldl].
    split; [done|]. split; [done|]. split; [done|]. split.
    { intros oid Hoid. apply Hin, elem_of_relatedObjectIDs.
      by eapply Hcontract. }
    split.
    { intros oid Hoid. apply Hout.
      by intros ?%elem_of_relatedObjectIDs. }
    split; [apply (installed_size _ _ _ _ _ _ _ Hinst)|].
    split; [apply (installed_heights _ _ _ _ _ _ _ Hinst)|].
    split; [apply NoDup_nil_2|]. split.
    { intros c Hin'. by apply elem_of_nil in Hin'. }
    split.
    { intros k. by rewrite decide_False by apply not_elem_of_nil. }
    split.
    { intros k. by rewrite decide_False by apply not_elem_of_nil. }
    do 3 (split; [done|]). split.
    { cbn [Pool.sumLens foldr]. f_equal. lia. }
    by left.
  - fold ts' in Hh. fold conflicts in Hh, Hne.
    assert (∀ oid c, oid ∈ oidMap ts' → knownObjects tp !! oid = Some c →
                     c ∈ conflicts) as Hcomplete.
    { intros oid c Hoid Hk. by eapply lookupConflicts_complete. }
    pose proof (handleConflicts_complete _ _ _ _ _ _ _ _ Hcomplete Hh)
      as Hform.
    cbn zeta in Hform.
    destruct (dedup_recomputed (oid_order sch 1) tp ts' conflicts Hcomplete)
      as [Hsub _].
    set (d := dedup (buildConflictMap tp conflicts) ts') in *.
    set (conflicts' :=
           if decide (length d < length ts')%nat
           then lookupConflicts tp (relatedObjectIDs (oid_order sch 1) d)
           else conflicts) in *.
    assert (∀ c, c ∈ conflicts' → c ∈ conflicts) as Hsub'.
    { unfold conflicts'. by destruct (decide (length d < length ts')%nat). }
    destruct (decide (d = [])) as [Hd|Hd]; [done|]. symmetry in Hform.
    pose proof Hform as (sz & cc & Hs & _ & _ & Hv & Htp')%mergeConflicts_Ok.
    set (cm := buildConflictMap tp conflicts') in *.
    set (ev := evict_order sch (supersetMap cm)) in *.
    assert (∀ c, c ∈ ev → c ∈ conflicts ∧ is_Some (transactionSets tp !! c))
      as Hev.
    { intros c Hin%elem_of_visit.
      apply supersetMap_registered in Hin as [Hin Hreg]. split; [|done].
      by apply Hsub'. }
    assert (NoDup ev) as Hnd by apply NoDup_visit.
    destruct (foldl_evict ev tp Hnd)
      as (Hsets & Hdiffs & Hknown & Hhts & Hbh & Hsz & _).
    { intros c Hin. by apply Hev. }
    pose proof (install_installed (foldl evict tp ev) s (diffObjects cc) cc)
      as Hinst.
    rewrite <- Htp' in Hinst.
    destruct (installed_lookup _ _ _ _ _ Hinst) as (Hs' & Hd' & Hin & Hout).
    exists cc, ev, (diffObjects cc). split; [done|]. cbn zeta.
    split; [done|]. split; [done|]. split; [done|]. split; [done|].
    split.
    { intros oid Hoid. rewrite <- Hknown. apply Hout.
      intros Hdiff. apply Hoid. by eapply Hcontract. }
    split; [apply (installed_size _ _ _ _ _ _ _ Hinst)|].
    split.
    { intros i. rewrite (installed_heights _ _ _ _ _ _ _ Hinst).
      by rewrite Hhts, Hbh. }
    do 8 (split; [done|]).
    right. by repeat split.
Qed.

(** *** Submitting a set twice *)

Lemma acceptTransactionSet_duplicate sch confirmed tp ts txnFn :
  let ts' := filter (λ txn, confirmed (ID txn) = false) ts in
  ts' ≠ [] →
  is_Some (transactionSets tp !! setIDOf ts') →
  acceptTransactionSet sch confirmed tp ts txnFn
    = Some (Err ErrDuplicateTransactionSet, tp).
Proof.
  intros ts' Hne [x Hx].
  assert (length ts ≠ 0%nat) as Hlen.
  { destruct ts; [|done]. by destruct Hne. }
  assert (length ts' ≠ 0%nat) as Hlen' by by destruct ts'.
  unfold Pool.acceptTransactionSet. fold ts'.
  rewrite !(decide_False (P := length _ = 0%nat)) by done.
  unfold Pool.checkTransactionSetComposition. by rewrite Hx.
Qed.

(** When the object index leads to pool sets that hold every transaction
    of the candidate, the resolver rejects the candidate as a duplicate. *)
Lemma acceptTransactionSet_all_pooled sch confirmed tp ts txnFn setSize :
  let ts' := filter (λ txn, confirmed (ID txn) = false) ts in
  let conflicts :=
    lookupConflicts tp (relatedObjectIDs (oid_order sch 0) ts') in
  ts' ≠ [] →
  checkTransactionSetComposition tp ts' = Ok setSize →
  checkMinerFees tp ts' setSize = Ok () →
  (∀ t, t ∈ ts' → is_Some (buildConflictMap tp conflicts !! ID t)) →
  acceptTransactionSet sch confirmed tp ts txnFn
    = Some (Err ErrDuplicateTransactionSet, tp).
Proof.
  intros ts' conflicts Hne Hc Hf Hcover.
  assert (length ts ≠ 0%nat) as Hlen.
  { destruct ts; [|done]. by destruct Hne. }
  assert (length ts' ≠ 0%nat) as Hlen' by by destruct ts'.
  unfold Pool.acceptTransactionSet. fold ts'.
  rewrite !(decide_False (P := length _ = 0%nat)) by done.
  rewrite Hc, Hf. fold conflicts.
  assert (conflicts ≠ []) as Hconf.
  { intros Hnil. destruct ts' as [|t ?]; [done|].
    destruct (Hcover t) as [c Hc']; [apply list_elem_of_here|].
    rewrite Hnil in Hc'. unfold buildConflictMap in Hc'. cbn in Hc'.
    by rewrite lookup_empty in Hc'. }
  rewrite decide_True by (destruct conflicts; [done|cbn; lia]).
  cbn [Pool.handleConflicts].
  assert (dedup (buildConflictMap tp conflicts) ts' = []) as ->.
  { apply filter_none. intros t Ht Hnone.
    destruct (Hcover t Ht) as [c Hc']. congruence. }
  by rewrite decide_True.
Qed.

(** After a merge that kept the whole candidate and whose diff names an
    object related to the candidate, the object index leads to the
    superset, which holds every transaction of the candidate. *)
Lemma merged_candidate_pooled sch1 sch2 confirmed tp ts txnFn s tp1 :
  let ts' := filter (λ txn, confirmed (ID txn) = false) ts in
  acceptTransactionSet sch1 confirmed tp ts txnFn = Some (Ok s, tp1) →
  lookupConflicts tp (relatedObjectIDs (oid_order sch1 0) ts') ≠ [] →
  (∀ t, t ∈ ts' → t ∈ s) →
  (∀ cc oid, txnFn s = inr cc → oid ∈ oidMap ts' → oid ∈ diffObjects cc) →
  ∀ t, t ∈ ts' →
    is_Some (buildConflictMap tp1
               (lookupConflicts tp1
                  (relatedObjectIDs (oid_order sch2 0) ts')) !! ID t).
Proof.
  intros ts' Hrun Hconf Hwhole Hdiff t Ht.
  apply acceptTransactionSet_Ok in Hrun
    as (_ & setSize & _ & _ & [(Hnil & _)|[_ Hh]]); [done|].
  apply handleConflicts_Ok in Hh as (d & conflicts' & _ & _ & _ & Hm).
  apply mergeConflicts_Ok in Hm as (sz & cc & _ & _ & _ & Hv & Htp1).
  pose proof (install_installed
                (foldl evict tp
                   (evict_order sch1
                      (supersetMap (buildConflictMap tp conflicts'))))
                s (diffObjects cc) cc) as Hinst.
  rewrite <- Htp1 in Hinst.
  assert (∃ oid, oid ∈ oidMap ts') as [oid Hoid].
  { fold ts' in Hconf.
    destruct (lookupConflicts tp _) as [|c ?] eqn:Hl; [done|].
    assert (c ∈ lookupConflicts tp
                  (relatedObjectIDs (oid_order sch1 0) ts')) as Hin
      by (rewrite Hl; apply list_elem_of_here).
    apply elem_of_lookupConflicts in Hin as (oid & Hoid & _).
    exists oid. by apply elem_of_relatedObjectIDs in Hoid. }
  assert (knownObjects tp1 !! oid = Some (setIDOf s)) as Hknown.
  { rewrite (installed_objects _ _ _ _ _ _ _ Hinst).
    rewrite decide_True; [done|]. by eapply Hdiff. }
  assert (setOf tp1 (setIDOf s) = s) as Hset.
  { unfold setOf. rewrite (installed_set _ _ _ _ _ _ _ Hinst).
    by rewrite lookup_insert_eq. }
  destruct (buildConflictMap tp1 _ !! ID t) as [c|] eqn:Hcm; [by eexists|].
  exfalso.
  eapply (proj1 (buildConflictMap_None _ _ _) Hcm (setIDOf s) t); [| |done].
  - by eapply lookupConflicts_complete.
  - rewrite Hset. by apply Hwhole.
Qed.

(** C7, as the code has it. Let a first call on [ts] succeed and leave the
    pool [tp1], and let [ts] be submitted again to [tp1] with the same
    confirmed transactions. Then [ts'], the unconfirmed part of [ts], is
    still standard, and:
    - if [ts'] is registered under its own identifier, which is always so
      after a conflict-free admission, the second call fails with
      [ErrDuplicateTransactionSet];
    - otherwise [ts'] meets the fee gate at the size of [tp1]: if the gate
      rejects it, the second call fails with [errLowMinerFees];
    - if the gate lets it through and the object index of [tp1] leads to
      pool sets that hold every transaction of [ts'], the second call
      fails with [ErrDuplicateTransactionSet]; this is so when the first
      call merged all of [ts'] into the superset and the ledger's diff
      names the objects related to [ts'];
    - whenever the second call returns an error, the pool is still
      [tp1]. *)
Theorem resubmission_rejected
    sch1 sch2 confirmed tp ts txnFn1 txnFn2 s tp1 :
  acceptTransactionSet sch1 confirmed tp ts txnFn1 = Some (Ok s, tp1) →
  let ts' := filter (λ txn, confirmed (ID txn) = false) ts in
  let conflicts1 :=
    lookupConflicts tp (relatedObjectIDs (oid_order sch1 0) ts') in
  let conflicts2 :=
    lookupConflicts tp1 (relatedObjectIDs (oid_order sch2 0) ts') in
  let second := acceptTransactionSet sch2 confirmed tp1 ts txnFn2 in
  ∃ setSize,
    isStandardTransactionSet ts' = inr setSize ∧
    (is_Some (transactionSets tp1 !! setIDOf ts') →
     second = Some (Err ErrDuplicateTransactionSet, tp1)) ∧
    (conflicts1 = [] → is_Some (transactionSets tp1 !! setIDOf ts')) ∧
    (transactionSets tp1 !! setIDOf ts' = None →
     checkMinerFees tp1 ts' setSize = Err errLowMinerFees →
     second = Some (Err errLowMinerFees, tp1)) ∧
    (checkMinerFees tp1 ts' setSize = Ok () →
     (∀ t, t ∈ ts' → is_Some (buildConflictMap tp1 conflicts2 !! ID t)) →
     second = Some (Err ErrDuplicateTransactionSet, tp1)) ∧
    (conflicts1 ≠ [] →
     (∀ t, t ∈ ts' → t ∈ s) →
     (∀ cc oid, txnFn1 s = inr cc → oid ∈ oidMap ts' →
                oid ∈ diffObjects cc) →
     ∀ t, t ∈ ts' → is_Some (buildConflictMap tp1 conflicts2 !! ID t)) ∧
    (∀ r tp2, second = Some (r, tp2) → is_Err r → tp2 = tp1).
Proof.
  intros Hrun ts' conflicts1 conflicts2 second.
  pose proof Hrun as (Hne & setSize & Hc & _ & Hpath)%acceptTransactionSet_Ok.
  fold ts' in Hne, Hc, Hpath.
  apply checkTransactionSetComposition_fresh in Hc as [_ Hstd].
  assert (length ts ≠ 0%nat) as Hlen.
  { destruct ts; [|done]. by destruct Hne. }
  assert (length ts' ≠ 0%nat) as Hlen' by by destruct ts'.
  exists setSize. split; [done|]. split.
  { intros Hreg. by apply acceptTransactionSet_duplicate. }
  split.
  { intros Hnil.
    destruct Hpath as [(_ & _ & cc & _ & ->)|[Hconf _]]; [|done].
    cbn. rewrite lookup_insert_eq. by eexists. }
  assert (transactionSets tp1 !! setIDOf ts' = None →
          checkTransactionSetComposition tp1 ts' = Ok setSize) as Hc1.
  { intros Hfresh. unfold Pool.checkTransactionSetComposition.
    by rewrite Hfresh, Hstd. }
  split.
  { intros Hfresh Hfee. unfold second, Pool.acceptTransactionSet. fold ts'.
    rewrite !(decide_False (P := length _ = 0%nat)) by done.
    by rewrite (Hc1 Hfresh), Hfee. }
  split.
  { intros Hfee Hcover.
    destruct (transactionSets tp1 !! setIDOf ts') as [x|] eqn:Hreg.
    - apply acceptTransactionSet_duplicate; [done|].
      fold ts'. rewrite Hreg. by eexists.
    - by eapply acceptTransactionSet_all_pooled; [|apply Hc1|..]. }
  split.
  { intros Hconf Hwhole Hdiff.
    by eapply merged_candidate_pooled. }
  intros r tp2 Hsecond Herr.
  eapply acceptTransactionSet_unchanged; [done|by apply is_Err_not_Ok].
Qed.

End admission_facts.

(** Membership in a list that evaluates to explicit elements. *)
Ltac list_cases H :=
  apply list_elem_of_In in H; vm_compute in H;
  repeat (destruct H as [<-|H]); [..|destruct H].
Ltac list_mem := apply list_elem_of_In; vm_compute; tauto.

(** C2. In every pool reached from an empty pool by successful calls of
    [acceptTransactionSet], [transactionListSize] is the sum of the encoded
    lengths of the sets in [transactionSets], computed in Go's [int]; it is
    that sum itself whenever the sum is a value of [int]. Moreover every
    successful call made on such a pool, through [handleConflicts] or not,
    removes a duplicate-free list of registered sets, registers the
    returned set under a fresh identifier, and changes
    [transactionListSize] by minus the encoded length of each removed set
    and plus the encoded length of the returned set. *)
Theorem pool_size_is_sum_of_set_sizes
    (setIDOf : list Transaction → TransactionSetID)
    (EncodedLen : list Transaction → Z)
    (isStandardTransactionSet : list Transaction → string + N)
    (TransactionPoolSizeForFee : Z)
    (requiredFeesToExtendTpoolAtSize : Z → Currency)
    (tp : TransactionPool) :
  reachable setIDOf EncodedLen isStandardTransactionSet
    TransactionPoolSizeForFee requiredFeesToExtendTpoolAtSize tp →
  in_int_range (poolBytes EncodedLen tp) →
  transactionListSize tp = poolBytes EncodedLen tp ∧
  (∀ fuel sch lvl ts conflicts txnFn s tp',
     handleConflicts setIDOf EncodedLen isStandardTransactionSet
       TransactionPoolSizeForFee requiredFeesToExtendTpoolAtSize
       fuel sch lvl tp ts conflicts txnFn = Some (Ok s, tp') →
     ∃ evicted,
       NoDup evicted ∧
       (∀ c, c ∈ evicted → is_Some (transactionSets tp !! c)) ∧
       transactionSets tp !! setIDOf s = None ∧
       transactionSets tp' !! setIDOf s = Some s ∧
       transactionListSize tp' =
         wrap_int (transactionListSize tp - sumLens EncodedLen tp evicted
                   + EncodedLen s) ∧
       poolBytes EncodedLen tp' =
         (poolBytes EncodedLen tp - sumLens EncodedLen tp evicted
          + EncodedLen s)%Z ∧
       (in_int_range (poolBytes EncodedLen tp') →
        transactionListSize tp' = poolBytes EncodedLen tp')).
Proof.
  intros Hreach Hrange.
  pose proof (reachable_invariant _ _ _ _ _ tp Hreach) as Hinv.
  split; [by rewrite Hinv, wrap_int_small|].
  intros fuel sch lvl ts conflicts txnFn s tp' Hrun.
  eapply handleConflicts_replaced in Hrun as [evicted Hrep].
  pose proof (replaced_invariant _ _ _ _ _ _ Hrep Hinv) as Hinv'.
  destruct Hrep as [Hnd Hreg Hfresh Hsets Hsz Hpb].
  exists evicted. repeat split; try done.
  - rewrite Hsets. by rewrite decide_True.
  - intros Hrange'. by rewrite Hinv', wrap_int_small.
Qed.

(** The pool that holds [[txA]] is reached from the empty pool, and its
    byte count is the encoded length of that set. *)
Lemma pool_size_is_sum_of_set_sizes_witness :
  ∃ tp, Scenario.poolA = Some tp ∧
        transactionListSize tp = poolBytes Scenario.EncodedLen tp.
Proof.
  eexists. split; [vm_compute; reflexivity|].
  eapply (pool_size_is_sum_of_set_sizes Scenario.setIDOf Scenario.EncodedLen
            Scenario.isStandardTransactionSet
            Scenario.TransactionPoolSizeForFee
            Scenario.requiredFeesToExtendTpoolAtSize).
  - eapply (reachable_accept _ _ _ _ _ (emptyPool 10) sorted_schedule
              Scenario.unconfirmed [Scenario.txA] Scenario.ledger
              [Scenario.txA]).
    + apply reachable_empty.
    + vm_compute. reflexivity.
  - unfold in_int_range. vm_compute. split; [discriminate|reflexivity].
Defined.

(** [[txB; txC]] submitted to the pool that holds [[txA]], with the ledger
    whose diff names the outputs that the set spends and creates: the
    ledger keeps its contract, [[txA]] is removed, the superset
    [[txA; txB; txC]] and its diff are registered and every object of the
    diff is mapped to the superset. *)
Lemma acceptTransactionSet_installs_witness :
  let s := [Scenario.txA; Scenario.txB; Scenario.txC] in
  (∀ cc oid, Scenario.ledger s = inr cc → oid ∈ diffObjects cc →
             oid ∈ oidMap s) ∧
  ∃ tp' cc,
    Scenario.submit Scenario.ledger Scenario.unconfirmed
      Scenario.poolA_state [Scenario.txB; Scenario.txC] = Some (Ok s, tp') ∧
    Scenario.ledger s = inr cc ∧
    transactionSets tp' !! Scenario.setIDOf s = Some s ∧
    transactionSetDiffs tp' !! Scenario.setIDOf s = Some cc ∧
    (∀ oid, oid ∈ diffObjects cc →
            knownObjects tp' !! oid = Some (Scenario.setIDOf s)) ∧
    transactionListSize tp' =
      wrap_int (transactionListSize Scenario.poolA_state
                - Scenario.EncodedLen [Scenario.txA]
                + Scenario.EncodedLen s) ∧
    transactionSets tp' !! Scenario.setIDOf [Scenario.txA] = None.
Proof.
  intros s.
  assert (∀ cc oid, Scenario.ledger s = inr cc → oid ∈ diffObjects cc →
                    oid ∈ oidMap s) as Hcontract.
  { intros cc oid [= <-] Hin.
    list_cases Hin; apply (bool_decide_unpack _); vm_compute; reflexivity. }
  split; [exact Hcontract|].
  destruct (acceptTransactionSet_installs Scenario.setIDOf Scenario.EncodedLen
              Scenario.isStandardTransactionSet
              Scenario.TransactionPoolSizeForFee
              Scenario.requiredFeesToExtendTpoolAtSize
              sorted_schedule Scenario.unconfirmed Scenario.poolA_state
              [Scenario.txB; Scenario.txC] Scenario.ledger s
              (default (emptyPool 10)
                 (snd <$> Scenario.submit Scenario.ledger Scenario.unconfirmed
                    Scenario.poolA_state [Scenario.txB; Scenario.txC]))
              Hcontract)
    as (cc & evicted & oids & Hv & _ & Hs & Hd & Hobj & _).
  { vm_compute. reflexivity. }
  eexists. exists cc.
  split; [vm_compute; reflexivity|].
  do 4 (split; [done|]).
  split; vm_compute; reflexivity.
Defined.

(** The conflict-free path: [[txA]] submitted to the empty pool is
    installed as it is and the objects of its diff, 103 and 203, are mapped
    to it. *)
Example install_without_conflicts :
  ∃ tp' cc,
    Scenario.submit Scenario.ledger Scenario.unconfirmed (emptyPool 10)
      [Scenario.txA] = Some (Ok [Scenario.txA], tp') ∧
    Scenario.ledger [Scenario.txA] = inr cc ∧
    diffObjects cc = [103; 203] ∧
    knownObjects tp' !! 103 = Some (Scenario.setIDOf [Scenario.txA]) ∧
    knownObjects tp' !! 203 = Some (Scenario.setIDOf [Scenario.txA]) ∧
    transactionSetDiffs tp' !! Scenario.setIDOf [Scenario.txA] = Some cc ∧
    transactionHeights tp' !! ID Scenario.txA = Some 10 ∧
    transactionListSize tp' = Scenario.EncodedLen [Scenario.txA].
Proof. do 2 eexists. repeat split; vm_compute; reflexivity. Qed.

(** C5. The set returned by a successful [handleConflicts] is the
    concatenation of pool sets, each one whole and in its own order, one
    after the other without repetition, followed by the deduplicated rest
    [d] of the candidate, which keeps the candidate's order: so every
    position of a transaction taken from a pool set is before every
    position of a transaction taken from the candidate. The rest [d] holds
    no transaction with the identifier of a transaction of a merged set,
    and every transaction of the candidate that is not in [d] has the
    identifier of a pooled transaction; the merged sets are the non-empty
    sets of [supersetMap]. When the conflict list is the one that the
    caller computes, [d] is the candidate without the transactions of the
    conflicting sets and the merged sets are those of the conflicts found
    for [d]. In particular, when the pool holds [[txA]] and the candidate
    is [[txB; txC]], where [txC] spends the output that [txA] creates, the
    superset is [[txA; txB; txC]]; and the candidate [[txA; txC]] gives
    [[txA; txC]], with [txA] once. *)
Theorem handleConflicts_superset_order :
  (∀ setIDOf EncodedLen isStandardTransactionSet TransactionPoolSizeForFee
     requiredFeesToExtendTpoolAtSize
     fuel sch lvl tp ts conflicts txnFn s tp',
     handleConflicts setIDOf EncodedLen isStandardTransactionSet
       TransactionPoolSizeForFee requiredFeesToExtendTpoolAtSize
       fuel sch lvl tp ts conflicts txnFn = Some (Ok s, tp') →
     ∃ merged d,
       s = concat (setOf tp <$> merged) ++ d ∧
       NoDup merged ∧
       (∀ c, c ∈ merged → is_Some (transactionSets tp !! c)) ∧
       d `sublist_of` ts ∧ d ≠ [] ∧
       (∀ i j a b,
          (i < length (concat (setOf tp <$> merged)))%nat →
          (length (concat (setOf tp <$> merged)) ≤ j)%nat →
          s !! i = Some a → s !! j = Some b →
          (i < j)%nat ∧ a ∈ concat (setOf tp <$> merged) ∧ b ∈ d) ∧
       (∀ c, c ∈ merged → setOf tp c ≠ []) ∧
       (∀ t c t', t ∈ d → c ∈ merged → t' ∈ setOf tp c → ID t' ≠ ID t) ∧
       (∀ t, t ∈ ts → t ∈ d ∨ ∃ c t', t' ∈ setOf tp c ∧ ID t' = ID t) ∧
       ∃ conflicts',
         merged =
           merge_order sch (supersetMap (buildConflictMap tp conflicts')) ∧
         dedup (buildConflictMap tp conflicts') d = d) ∧
  (∀ setIDOf EncodedLen isStandardTransactionSet TransactionPoolSizeForFee
     requiredFeesToExtendTpoolAtSize
     fuel sch lvl tp ts conflicts txnFn s tp',
     (∀ oid c, oid ∈ oidMap ts → knownObjects tp !! oid = Some c →
               c ∈ conflicts) →
     handleConflicts setIDOf EncodedLen isStandardTransactionSet
       TransactionPoolSizeForFee requiredFeesToExtendTpoolAtSize
       fuel sch lvl tp ts conflicts txnFn = Some (Ok s, tp') →
     let d := dedup (buildConflictMap tp conflicts) ts in
     let conflicts' :=
       if decide (length d < length ts)%nat
       then lookupConflicts tp (relatedObjectIDs (oid_order sch lvl) d)
       else conflicts in
     d ≠ [] ∧
     s = concat (setOf tp <$>
                   merge_order sch
                     (supersetMap (buildConflictMap tp conflicts')))
         ++ d) ∧
  SiacoinInputs Scenario.txC = SiacoinOutputIDs Scenario.txA ∧
  transactionSets Scenario.poolA_state
    = {[Scenario.setIDOf [Scenario.txA] := [Scenario.txA]]} ∧
  fst <$> Scenario.submit Scenario.ledger Scenario.unconfirmed
            Scenario.poolA_state [Scenario.txB; Scenario.txC]
  = Some (Ok [Scenario.txA; Scenario.txB; Scenario.txC]) ∧
  fst <$> Scenario.submit Scenario.ledger Scenario.unconfirmed
            Scenario.poolA_state [Scenario.txA; Scenario.txC]
  = Some (Ok [Scenario.txA; Scenario.txC]).
Proof.
  split; [|split; [|split; [done|]; split; [|split]; vm_compute; reflexivity]].
  - intros setIDOf EncodedLen isStandardTransactionSet
      TransactionPoolSizeForFee requiredFeesToExtendTpoolAtSize
      fuel sch lvl tp ts conflicts txnFn s tp' Hrun.
    by eapply handleConflicts_superset.
  - intros setIDOf EncodedLen isStandardTransactionSet
      TransactionPoolSizeForFee requiredFeesToExtendTpoolAtSize
      fuel sch lvl tp ts conflicts txnFn s tp' Hcomplete Hrun.
    by eapply handleConflicts_superset_complete.
Qed.

(** The general statement applied to the candidate [[txA; txC]] on the
    pool that holds [[txA]]: the superset is the pool set followed by the
    rest [[txC]] of the candidate. *)
Lemma handleConflicts_superset_order_witness :
  let conflicts :=
    lookupConflicts Scenario.poolA_state
      (relatedObjectIDs sorted_iteration [Scenario.txA; Scenario.txC]) in
  let d := dedup (buildConflictMap Scenario.poolA_state conflicts)
             [Scenario.txA; Scenario.txC] in
  (∃ merged d',
     [Scenario.txA; Scenario.txC] =
       concat (setOf Scenario.poolA_state <$> merged) ++ d' ∧
     NoDup merged ∧
     d' `sublist_of` [Scenario.txA; Scenario.txC] ∧ d' ≠ [] ∧
     (∀ t c t', t ∈ d' → c ∈ merged → t' ∈ setOf Scenario.poolA_state c →
                ID t' ≠ ID t)) ∧
  d = [Scenario.txC] ∧
  [Scenario.txA; Scenario.txC] =
    concat (setOf Scenario.poolA_state <$>
              sorted_iteration
                (supersetMap
                   (buildConflictMap Scenario.poolA_state
                      (lookupConflicts Scenario.poolA_state
                         (relatedObjectIDs sorted_iteration d)))))
    ++ d.
Proof.
  intros conflicts d.
  pose (tp' := default (emptyPool 10)
                 (snd <$> Scenario.submit Scenario.ledger Scenario.unconfirmed
                    Scenario.poolA_state [Scenario.txA; Scenario.txC])).
  assert (handleConflicts Scenario.setIDOf Scenario.EncodedLen
            Scenario.isStandardTransactionSet
            Scenario.TransactionPoolSizeForFee
            Scenario.requiredFeesToExtendTpoolAtSize
            3%nat sorted_schedule 1%nat Scenario.poolA_state
            [Scenario.txA; Scenario.txC] conflicts Scenario.ledger
          = Some (Ok [Scenario.txA; Scenario.txC], tp')) as Hrun.
  { vm_compute. reflexivity. }
  split; [|split; [vm_compute; reflexivity|]].
  - destruct (proj1 handleConflicts_superset_order
                _ _ _ _ _ _ _ _ _ _ _ _ _ _ Hrun)
      as (merged & d' & Hs & Hnd & _ & Hsub & Hne & _ & _ & Hfresh & _).
    exists merged, d'.
    exact (conj Hs (conj Hnd (conj Hsub (conj Hne Hfresh)))).
  - destruct (proj1 (proj2 handleConflicts_superset_order)
                _ _ _ _ _ _ _ _ _ _ _ _ _ _
                (λ oid c Hoid Hk,
                   lookupConflicts_complete sorted_iteration
                     Scenario.poolA_state [Scenario.txA; Scenario.txC]
                     oid c Hoid Hk)
                Hrun)
      as [_ Hexact].
    exact Hexact.
Defined.

(** [txA] is on the chain, [txB] is not: [[txA]] alone is a duplicate,
    and [[txA; txB]] is admitted as [[txB]], which is installed in the
    pool. *)
Lemma acceptTransactionSet_filters_confirmed_witness :
  let confirmed := λ i : TransactionID, bool_decide (i = ID Scenario.txA) in
  let cc := {| SiacoinOutputDiffs := [104%N; 204%N];
               FileContractDiffs := [];
               SiafundOutputDiffs := [] |} in
  let tp' := install Scenario.setIDOf Scenario.EncodedLen (emptyPool 10)
               [Scenario.txB]
               (relatedObjectIDs sorted_iteration [Scenario.txB]) cc in
  Scenario.submit Scenario.ledger confirmed (emptyPool 10) [Scenario.txA]
    = Some (Err ErrDuplicateTransactionSet, emptyPool 10) ∧
  Scenario.submit Scenario.ledger confirmed (emptyPool 10)
    [Scenario.txA; Scenario.txB] = Some (Ok [Scenario.txB], tp') ∧
  transactionSets tp' !! Scenario.setIDOf [Scenario.txB]
    = Some [Scenario.txB].
Proof.
  intros confirmed cc tp'. split.
  - assert ([Scenario.txA] ≠ []) as Hne by discriminate.
    destruct (acceptTransactionSet_filters_confirmed
                Scenario.setIDOf Scenario.EncodedLen
                Scenario.isStandardTransactionSet
                Scenario.TransactionPoolSizeForFee
                Scenario.requiredFeesToExtendTpoolAtSize
                sorted_schedule confirmed (emptyPool 10) [Scenario.txA]
                Scenario.ledger Hne)
      as (_ & _ & Hall & _).
    apply Hall.
    intros t Ht. apply list_elem_of_singleton in Ht as ->. reflexivity.
  - assert ([Scenario.txA; Scenario.txB] ≠ []) as Hne by discriminate.
    destruct (acceptTransactionSet_filters_confirmed
                Scenario.setIDOf Scenario.EncodedLen
                Scenario.isStandardTransactionSet
                Scenario.TransactionPoolSizeForFee
                Scenario.requiredFeesToExtendTpoolAtSize
                sorted_schedule confirmed (emptyPool 10)
                [Scenario.txA; Scenario.txB] Scenario.ledger Hne)
      as (_ & _ & _ & Hsome).
    destruct Hsome as (_ & _ & _ & _ & Hgo & _).
    { exists Scenario.txB. split; [|reflexivity].
      apply list_elem_of_further, list_elem_of_here. }
    destruct (Hgo 1008) as (_ & _ & Hok).
    { vm_compute. reflexivity. }
    { vm_compute. reflexivity. }
    apply (Hok eq_refl cc). reflexivity.
Defined.


(** [[txA]] submitted twice to an empty pool, and [[txB; txC]] submitted
    twice to the pool that holds [[txA]], where the first call merges it
    into [[txA; txB; txC]]: the second call is a duplicate both times. *)
Lemma resubmission_rejected_witness :
  Scenario.submit Scenario.ledger Scenario.unconfirmed
    Scenario.poolA_state [Scenario.txA]
    = Some (Err ErrDuplicateTransactionSet, Scenario.poolA_state) ∧
  ∃ tp1,
    Scenario.submit Scenario.ledger Scenario.unconfirmed
      Scenario.poolA_state [Scenario.txB; Scenario.txC]
      = Some (Ok [Scenario.txA; Scenario.txB; Scenario.txC], tp1) ∧
    Scenario.submit Scenario.ledger Scenario.unconfirmed
      tp1 [Scenario.txB; Scenario.txC]
      = Some (Err ErrDuplicateTransactionSet, tp1).
Proof.
  pose proof (resubmission_rejected Scenario.setIDOf Scenario.EncodedLen
                Scenario.isStandardTransactionSet
                Scenario.TransactionPoolSizeForFee
                Scenario.requiredFeesToExtendTpoolAtSize
                sorted_schedule sorted_schedule Scenario.unconfirmed) as Hre.
  split.
  - destruct (Hre (emptyPool 10) [Scenario.txA] Scenario.ledger
                Scenario.ledger [Scenario.txA] Scenario.poolA_state)
      as (setSize & _ & Hdup & Hfree & _).
    { vm_compute. reflexivity. }
    apply Hdup, Hfree. vm_compute. reflexivity.
  - eexists. split; [vm_compute; reflexivity|].
    match goal with
    | |- Scenario.submit _ _ ?tp1 _ = _ =>
        destruct (Hre Scenario.poolA_state [Scenario.txB; Scenario.txC]
                    Scenario.ledger Scenario.ledger
                    [Scenario.txA; Scenario.txB; Scenario.txC] tp1)
          as (setSize & Hstd & _ & _ & _ & Hpooled & Hcover & _)
    end.
    { vm_compute. reflexivity. }
    assert (setSize = 10008%N) as -> by (vm_compute in Hstd; congruence).
    apply Hpooled; [vm_compute; reflexivity|].
    apply Hcover.
    + vm_compute. discriminate.
    + intros t Ht. list_cases Ht; list_mem.
    + intros cc oid [= <-] Hoid.
      apply elem_of_elements in Hoid. list_cases Hoid; list_mem.
Defined.

(** The claim as the specification words it fails when the first
    admission takes the pool over the size from which fees are required:
    the pool holds [[txP]], [[txQ]] and [[txA]] (490024 bytes); the first
    call merges [[txB; txC]], which pays no fee, into [[txA; txB; txC]] and
    the pool grows to 500024 bytes; the second call is rejected by the fee
    gate, before any duplicate is looked for. *)
Lemma resubmission_counterexample :
  ∃ tp tp1,
    Scenario.poolPQA = Some tp ∧
    Scenario.submit Scenario.ledger Scenario.unconfirmed
      tp [Scenario.txB; Scenario.txC]
      = Some (Ok [Scenario.txA; Scenario.txB; Scenario.txC], tp1) ∧
    transactionListSize tp = 490024%Z ∧
    transactionListSize tp1 = 500024%Z ∧
    Scenario.submit Scenario.ledger Scenario.unconfirmed
      tp1 [Scenario.txB; Scenario.txC]
      = Some (Err errLowMinerFees, tp1) ∧
    Scenario.submit Scenario.ledger Scenario.unconfirmed
      tp1 [Scenario.txB; Scenario.txC]
      ≠ Some (Err ErrDuplicateTransactionSet, tp1).
Proof.
  do 2 eexists.
  split; [vm_compute; reflexivity|].
  split; [vm_compute; reflexivity|].
  split; [vm_compute; reflexivity|].
  split; [vm_compute; reflexivity|].
  split; [vm_compute; reflexivity|].
  vm_compute. discriminate.
Qed.

(** Resubmitting [txA] together with [txB] to the pool that holds
    [[txA]]: the first deduplication prunes [txA], the recursive call finds
    no conflict for [[txB]] and installs it. *)
Lemma handleConflicts_recursion_depth_witness :
  let tp := Scenario.poolA_state in
  let ts := [Scenario.txA; Scenario.txB] in
  let conflicts :=
    lookupConflicts tp (relatedObjectIDs sorted_iteration ts) in
  let d := dedup (buildConflictMap tp conflicts) ts in
  let conflicts' :=
    lookupConflicts tp (relatedObjectIDs sorted_iteration d) in
  (∀ t c t', t ∈ d → c ∈ conflicts' → t' ∈ setOf tp c → ID t' ≠ ID t) ∧
  dedup (buildConflictMap tp conflicts') d = d ∧
  ∃ res,
    handleConflicts Scenario.setIDOf Scenario.EncodedLen
      Scenario.isStandardTransactionSet Scenario.TransactionPoolSizeForFee
      Scenario.requiredFeesToExtendTpoolAtSize
      2 sorted_schedule 1 tp ts conflicts Scenario.ledger = Some res ∧
    ∀ fuel, (2 ≤ fuel)%nat →
      handleConflicts Scenario.setIDOf Scenario.EncodedLen
        Scenario.isStandardTransactionSet Scenario.TransactionPoolSizeForFee
        Scenario.requiredFeesToExtendTpoolAtSize
        fuel sorted_schedule 1 tp ts conflicts Scenario.ledger = Some res.
Proof.
  intros tp ts conflicts.
  apply (handleConflicts_recursion_depth Scenario.setIDOf Scenario.EncodedLen
           Scenario.isStandardTransactionSet Scenario.TransactionPoolSizeForFee
           Scenario.requiredFeesToExtendTpoolAtSize
           sorted_schedule 1 tp ts conflicts Scenario.ledger).
  intros oid c Hoid Hc. by eapply lookupConflicts_complete.
Defined.

(** The same call evaluated: [txA] is pruned, [[txB]] is admitted alone,
    and one nested call is not enough when fuel is 1. *)
Example handleConflicts_prunes_once :
  let tp := Scenario.poolA_state in
  let ts := [Scenario.txA; Scenario.txB] in
  let conflicts :=
    lookupConflicts tp (relatedObjectIDs sorted_iteration ts) in
  fst <$> handleConflicts Scenario.setIDOf Scenario.EncodedLen
      Scenario.isStandardTransactionSet Scenario.TransactionPoolSizeForFee
      Scenario.requiredFeesToExtendTpoolAtSize
      2 sorted_schedule 1 tp ts conflicts Scenario.ledger
    = Some (Ok [Scenario.txB]) ∧
  handleConflicts Scenario.setIDOf Scenario.EncodedLen
      Scenario.isStandardTransactionSet Scenario.TransactionPoolSizeForFee
      Scenario.requiredFeesToExtendTpoolAtSize
      1 sorted_schedule 1 tp ts conflicts Scenario.ledger = None.
Proof. vm_compute. split; reflexivity. Qed.

End PoolFacts.

(** ** More on the bounded caches *)

Module CacheMoreFacts.
Import Cache CacheOrder.

Section ring_more.
Context {K V : Type} `{Countable K}.
Variable zeroK : K.
Variable zeroV : V.
Variable cacheSize : Z.
Hypothesis cacheSize_pos : 0 < cacheSize.
Hypothesis cacheSize_int : cacheSize < int_half.

Local Abbreviation wf := (wf cacheSize).
Local Abbreviation Push := (Push cacheSize).
Local Abbreviation pushAll := (pushAll cacheSize).
Local Abbreviation newCache := (newCache zeroK zeroV cacheSize).
Local Abbreviation Lookup := (Lookup zeroV).
Local Abbreviation slots_indexed := (slots_indexed zeroK).
Local Abbreviation remaining := (remaining cacheSize).

Implicit Types (c : cache K V) (k : K) (v : V) (kvs : list (K * V)).

Local Abbreviation next_slot := (next_slot cacheSize).

(** [Push] of a key that is not indexed, spelled out on a cache in use. *)
Lemma Push_absent c k v :
  wf c → index c !! k = None →
  ∃ e,
    0 ≤ next_slot c < cacheSize ∧
    outputs c !! Z.to_nat (next_slot c) = Some e ∧
    Push c k v =
      Some {| index := <[k := next_slot c]> (delete (id e) (index c));
              outputs := <[Z.to_nat (next_slot c) := Info k v]> (outputs c);
              tip := next_slot c |}.
Proof.
  intros Hwf Hk. pose proof Hwf as [Hlen Htip _].
  unfold Cache.Push. rewrite Hk.
  rewrite wrap_int_small by (unfold in_int_range, int_half in *; lia).
  fold (next_slot c).
  assert (0 ≤ next_slot c < cacheSize) as Hr
    by (unfold next_slot; case_decide; lia).
  unfold slice_get, slice_set. rewrite decide_False by lia.
  destruct (outputs c !! Z.to_nat (next_slot c)) as [e|] eqn:He.
  - by exists e.
  - apply lookup_ge_None in He. lia.
Qed.

(** X1. An insertion evicts the occupant of the next slot and nothing
    else: after [Push] of a key [k] that is not indexed, [tip] is the next
    slot, [k] is found with its value, the identifier that was stored in
    that slot is no longer found, and [Lookup] of every other key is as
    before. *)
Theorem Push_evicts_next_slot c k v c1 :
  wf c → index c !! k = None → Push c k v = Some c1 →
  ∃ e,
    outputs c !! Z.to_nat (next_slot c) = Some e ∧
    tip c1 = next_slot c ∧
    Lookup c1 k = Some (v, true) ∧
    ∀ k', k' ≠ k →
      Lookup c1 k' =
      if decide (k' = id e) then Some (zeroV, false) else Lookup c k'.
Proof.
  intros Hwf Hk Hpush.
  destruct (Push_absent c k v Hwf Hk) as (e & Hr & He & Heq).
  rewrite Heq in Hpush. injection Hpush as <-.
  destruct Hwf as [Hlen Htip Hidx].
  exists e. split; [done|]. split; [done|]. split.
  - unfold Cache.Lookup, slice_get. cbn. rewrite lookup_insert_eq.
    rewrite decide_False by lia.
    rewrite list_lookup_insert_eq; [done|]. lia.
  - intros k' Hne. unfold Cache.Lookup. cbn.
    rewrite lookup_insert_ne by done.
    destruct (decide (k' = id e)) as [->|Hne'].
    { by rewrite lookup_delete_eq. }
    rewrite lookup_delete_ne by done.
    destruct (index c !! k') as [i|] eqn:Hi; [|done].
    destruct (Hidx _ _ Hi) as (Hi0 & e' & He' & Hid).
    unfold slice_get. rewrite !(decide_False (P := i < 0)) by lia.
    rewrite list_lookup_insert_ne; [done|].
    intros Heq'. apply Z2Nat.inj in Heq'; [|lia..]. subst i.
    rewrite He in He'. injection He' as ->. done.
Qed.

(** *** Entries outlive the next insertions *)

Lemma slots_indexed_new : slots_indexed newCache.
Proof.
  intros i e He Hid. cbn in He.
  apply lookup_replicate in He as [-> _]. done.
Qed.

Lemma Push_slots_indexed c k v c1 :
  wf c → slots_indexed c → Push c k v = Some c1 → slots_indexed c1.
Proof.
  intros Hwf Hsl Hpush.
  destruct (index c !! k) as [j|] eqn:Hk.
  { unfold Cache.Push in Hpush. rewrite Hk in Hpush. by injection Hpush as <-. }
  destruct (Push_absent c k v Hwf Hk) as (e & Hr & He & Heq).
  rewrite Heq in Hpush. injection Hpush as <-.
  intros i e1 He1 Hid. cbn in He1 |- *.
  destruct (decide (i = Z.to_nat (next_slot c))) as [->|Hne].
  - rewrite list_lookup_insert_eq in He1
      by (by eapply lookup_lt_Some).
    injection He1 as <-. cbn. rewrite lookup_insert_eq. f_equal. lia.
  - rewrite list_lookup_insert_ne in He1 by done.
    pose proof (Hsl _ _ He1 Hid) as Hi1.
    rewrite lookup_insert_ne by congruence.
    rewrite lookup_delete_ne; [done|].
    intros Heq'. rewrite <- Heq' in Hid, Hi1.
    pose proof (Hsl _ _ He Hid) as Hi2.
    rewrite Hi1 in Hi2. injection Hi2 as Hi2. lia.
Qed.

Lemma pushAll_slots_indexed kvs : ∀ c c1,
  wf c → slots_indexed c → pushAll c kvs = Some c1 →
  wf c1 ∧ slots_indexed c1.
Proof.
  induction kvs as [|[k v] kvs IH]; intros c c1 Hwf Hsl; cbn.
  - by intros [= <-].
  - destruct (CacheFacts.Push_wf cacheSize cacheSize_pos cacheSize_int
                c k v Hwf) as (c' & Hpush & Hwf').
    rewrite Hpush. apply IH; [done|].
    exact (Push_slots_indexed c k v c' Hwf Hsl Hpush).
Qed.

Lemma survives kvs k v i : ∀ c,
  wf c → slots_indexed c → k ≠ zeroK →
  index c !! k = Some i →
  slice_get (outputs c) i = Some (Info k v) →
  Z.of_nat (length kvs) ≤ remaining c i →
  ∃ c2, pushAll c kvs = Some c2 ∧ index c2 !! k = Some i ∧
        slice_get (outputs c2) i = Some (Info k v).
Proof.
  induction kvs as [|[k' v'] kvs IH]; intros c Hwf Hsl Hk0 Hi Hslot Hrem;
    cbn [Cache.pushAll].
  - by exists c.
  - cbn [length] in Hrem.
    destruct (index c !! k') as [j|] eqn:Hk'.
    + unfold Cache.Push. rewrite Hk'. apply IH; try done. lia.
    + destruct (Push_absent c k' v' Hwf Hk') as (e & Hr & He & Heq).
      destruct (CacheFacts.Push_wf cacheSize cacheSize_pos cacheSize_int
                  c k' v' Hwf) as (c' & Hpush & Hwf').
      pose proof (Push_slots_indexed c k' v' c' Hwf Hsl Hpush) as Hsl'.
      rewrite Hpush. rewrite Heq in Hpush. injection Hpush as <-.
      pose proof Hwf as [Hlen Htip Hidx].
      destruct (Hidx _ _ Hi) as (Hi0 & e0 & He0 & _).
      apply lookup_lt_Some in He0.
      assert (next_slot c ≠ i ∧
              CacheOrder.remaining cacheSize
                {| index := <[k' := next_slot c]> (delete (id e) (index c));
                   outputs := <[Z.to_nat (next_slot c) := Info k' v']>
                                (outputs c);
                   tip := next_slot c |} i = remaining c i - 1)
        as [Hne Hrem'].
      { revert Hrem Hr.
        unfold CacheOrder.remaining, CacheOrder.next_slot. cbn.
        repeat case_decide; lia. }
      apply IH; try done.
      * cbn. rewrite lookup_insert_ne by congruence.
        rewrite lookup_delete_ne; [done|].
        intros Heq'. pose proof (Hsl _ _ He) as Hi2. rewrite Heq' in Hi2.
        specialize (Hi2 Hk0). rewrite Hi in Hi2. injection Hi2 as Hi2. lia.
      * revert Hslot. unfold slice_get. cbn. case_decide; [done|].
        rewrite list_lookup_insert_ne; [done|].
        intros Heq'. apply Z2Nat.inj in Heq'; lia.
      * lia.
Qed.

(** X2. An entry whose key is not the zero identifier outlives the next
    [cacheSize - 1] calls of [Push]: on a cache built by [Push] calls from
    a new cache, after [Push] of such a key [k], not indexed, with value
    [v], any further sequence of fewer than [cacheSize] calls of [Push]
    (with any keys and values, [k] included) runs without panic and leaves
    [Lookup k] at [v]. *)
Theorem entry_outlives_pushes kvs0 c k v c1 kvs :
  pushAll newCache kvs0 = Some c →
  k ≠ zeroK →
  index c !! k = None →
  Push c k v = Some c1 →
  Z.of_nat (length kvs) < cacheSize →
  ∃ c2, pushAll c1 kvs = Some c2 ∧ Lookup c2 k = Some (v, true).
Proof.
  intros Hrun Hk0 Hk Hpush Hlen.
  destruct (pushAll_slots_indexed kvs0 newCache c) as [Hwf Hsl];
    [by apply CacheFacts.wf_new|apply slots_indexed_new|done|].
  destruct (Push_absent c k v Hwf Hk) as (e & Hr & He & Heq).
  destruct (CacheFacts.Push_wf cacheSize cacheSize_pos cacheSize_int
              c k v Hwf) as (c' & Hpush' & Hwf').
  rewrite Hpush in Hpush'. injection Hpush' as <-.
  pose proof (Push_slots_indexed c k v c1 Hwf Hsl Hpush) as Hsl'.
  rewrite Heq in Hpush. injection Hpush as <-.
  destruct Hwf as [Hlen0 _ _].
  destruct (survives kvs k v (next_slot c) _ Hwf' Hsl' Hk0)
    as (c2 & Hrun2 & Hi2 & Hslot2).
  - cbn. apply lookup_insert_eq.
  - unfold slice_get. cbn. rewrite decide_False by lia.
    apply list_lookup_insert_eq. lia.
  - unfold CacheOrder.remaining. cbn. rewrite decide_False by lia. lia.
  - exists c2. split; [done|]. unfold Cache.Lookup. by rewrite Hi2, Hslot2.
Qed.

(** X3. The zero identifier is the exception: the slots of a new cache
    hold it, and an insertion into a slot that was never written deletes
    it from the index. On a new cache of more than two slots, [Push] of
    the zero identifier followed by [Push] of any other key leaves the
    zero identifier not found, with a single entry in the index. *)
Theorem zero_identifier_evicted_early k v v' :
  2 < cacheSize →
  k ≠ zeroK →
  ∃ c2,
    pushAll newCache [(zeroK, v); (k, v')] = Some c2 ∧
    Lookup c2 zeroK = Some (zeroV, false) ∧
    Lookup c2 k = Some (v', true) ∧
    size (index c2) = 1%nat.
Proof.
  intros Hsize Hk0. cbn [Cache.pushAll].
  pose proof (CacheFacts.wf_new zeroK zeroV cacheSize cacheSize_pos) as Hwf0.
  destruct (Push_absent newCache zeroK v Hwf0) as (e & Hr & He & Heq);
    [done|].
  destruct (CacheFacts.Push_wf cacheSize cacheSize_pos cacheSize_int
              newCache zeroK v Hwf0) as (c1 & Hpush & Hwf1).
  rewrite Hpush. rewrite Heq in Hpush. injection Hpush as <-.
  assert (CacheOrder.next_slot cacheSize newCache = 1) as Hn0.
  { unfold CacheOrder.next_slot. cbn. rewrite decide_False; lia. }
  rewrite Hn0 in *. cbn in He.
  apply lookup_replicate in He as [-> _]. cbn [id] in *.
  match type of Hwf1 with Cache.wf _ ?c => set (c1 := c) in * end.
  assert (index c1 !! k = None) as Hk1.
  { subst c1. cbn. rewrite lookup_insert_ne by done.
    by rewrite lookup_delete_ne, lookup_empty by done. }
  destruct (Push_absent c1 k v' Hwf1 Hk1) as (e2 & Hr2 & He2 & Heq2).
  assert (CacheOrder.next_slot cacheSize c1 = 2) as Hn1.
  { unfold CacheOrder.next_slot. subst c1. cbn. rewrite decide_False; lia. }
  rewrite Hn1 in *. rewrite Heq2.
  assert (e2 = Info zeroK zeroV) as ->.
  { subst c1. cbn in He2. rewrite list_lookup_insert_ne in He2 by lia.
    by apply lookup_replicate in He2 as [-> _]. }
  eexists. split; [done|]. cbn [id]. subst c1. cbn [index outputs tip].
  rewrite delete_insert_eq, delete_empty, delete_empty.
  split; [|split].
  - unfold Cache.Lookup. cbn.
    by rewrite lookup_insert_ne, lookup_empty by done.
  - unfold Cache.Lookup, slice_get. cbn. rewrite lookup_insert_eq.
    rewrite decide_False by lia.
    rewrite list_lookup_insert_eq; [done|].
    rewrite length_insert, length_replicate. lia.
  - cbn. rewrite insert_empty. apply map_size_singleton.
Qed.

(** *** Entries are evicted in the order of their insertion *)

Lemma Push_index_dom c k v c1 k' :
  wf c → Push c k v = Some c1 →
  is_Some (index c1 !! k') → k' = k ∨ is_Some (index c !! k').
Proof.
  intros Hwf Hpush Hk'.
  destruct (index c !! k) as [j|] eqn:Hk.
  { unfold Cache.Push in Hpush. rewrite Hk in Hpush.
    injection Hpush as <-. by right. }
  destruct (Push_absent c k v Hwf Hk) as (e & _ & _ & Heq).
  rewrite Heq in Hpush. injection Hpush as <-. cbn in Hk'.
  destruct (decide (k' = k)) as [->|Hne]; [by left|right].
  rewrite lookup_insert_ne in Hk' by done.
  destruct Hk' as [i Hi]. apply lookup_delete_Some in Hi as [_ Hi].
  by eexists.
Qed.

Lemma evicted_after kvs k v i : ∀ c,
  wf c → slots_indexed c → k ≠ zeroK →
  index c !! k = Some i →
  slice_get (outputs c) i = Some (Info k v) →
  NoDup kvs.*1 →
  (∀ k', k' ∈ kvs.*1 → index c !! k' = None) →
  Z.of_nat (length kvs) = remaining c i + 1 →
  ∃ c2, pushAll c kvs = Some c2 ∧ index c2 !! k = None.
Proof.
  induction kvs as [|[k' v'] kvs IH];
    intros c Hwf Hsl Hk0 Hi Hslot Hnd Hfresh Hlen.
  { pose proof Hwf as [Hlen0 Htip Hidx].
    destruct (Hidx _ _ Hi) as (Hi0 & e0 & He0 & _).
    apply lookup_lt_Some in He0. revert Hlen.
    unfold CacheOrder.remaining. cbn. case_decide; lia. }
  cbn [Cache.pushAll]. cbn [fmap list_fmap fst] in Hnd, Hfresh.
  apply NoDup_cons in Hnd as [Hk'notin Hnd].
  assert (index c !! k' = None) as Hk'
    by apply Hfresh, list_elem_of_here.
  assert (k' ≠ k) as Hne by congruence.
  destruct (Push_absent c k' v' Hwf Hk') as (e & Hr & He & Heq).
  destruct (CacheFacts.Push_wf cacheSize cacheSize_pos cacheSize_int
              c k' v' Hwf) as (c' & Hpush & Hwf').
  pose proof (Push_slots_indexed c k' v' c' Hwf Hsl Hpush) as Hsl'.
  assert (∀ k'', k'' ∈ kvs.*1 → index c' !! k'' = None) as Hfresh'.
  { intros k'' Hin.
    destruct (index c' !! k'') as [j|] eqn:Hj; [|done].
    destruct (Push_index_dom c k' v' c' k'' Hwf Hpush) as [->|[j' Hj']];
      [by eexists|done|].
    rewrite Hfresh in Hj' by (by apply list_elem_of_further). done. }
  rewrite Hpush. rewrite Heq in Hpush. injection Hpush as <-.
  pose proof Hwf as [Hlen0 Htip Hidx].
  destruct (Hidx _ _ Hi) as (Hi0 & e0 & He0 & _).
  pose proof (lookup_lt_Some _ _ _ He0) as Hi1.
  cbn [length] in Hlen.
  destruct (decide (remaining c i = 0)) as [Hzero|Hpos].
  - assert (next_slot c = i) as Hnext.
    { revert Hzero Hr.
      unfold CacheOrder.remaining, CacheOrder.next_slot.
      repeat case_decide; lia. }
    destruct kvs as [|? ?]; [|cbn [length] in Hlen; lia].
    eexists. split; [done|]. cbn.
    rewrite lookup_insert_ne by done.
    assert (e = Info k v) as ->.
    { revert Hslot. unfold slice_get. case_decide; [done|].
      rewrite <- Hnext, He. by intros [= ->]. }
    apply lookup_delete_eq.
  - assert (0 ≤ remaining c i) as Hnonneg.
    { unfold CacheOrder.remaining. case_decide; lia. }
    assert (next_slot c ≠ i ∧
            CacheOrder.remaining cacheSize
              {| index := <[k' := next_slot c]> (delete (id e) (index c));
                 outputs := <[Z.to_nat (next_slot c) := Info k' v']>
                              (outputs c);
                 tip := next_slot c |} i = remaining c i - 1)
      as [Hne' Hrem'].
    { revert Hpos Hnonneg Hr.
      unfold CacheOrder.remaining, CacheOrder.next_slot. cbn.
      repeat case_decide; lia. }
    apply IH; try done.
    + cbn. rewrite lookup_insert_ne by done.
      rewrite lookup_delete_ne; [done|].
      intros Heq'. pose proof (Hsl _ _ He) as Hi2. rewrite Heq' in Hi2.
      specialize (Hi2 Hk0). rewrite Hi in Hi2. injection Hi2 as Hi2. lia.
    + revert Hslot. unfold slice_get. cbn. case_decide; [done|].
      rewrite list_lookup_insert_ne; [done|].
      intros Heq'. apply Z2Nat.inj in Heq'; lia.
    + lia.
Qed.

(** X15. The bound of X2 is exact: an entry is evicted by the insertion
    number [cacheSize] after its own. On a cache built by [Push] calls
    from a new cache, after [Push] of a key [k] other than the zero
    identifier, not indexed, [cacheSize] further calls of [Push] with
    pairwise distinct keys that are not in the index run without panic
    and leave [k] not found. *)
Theorem entry_evicted_after_cacheSize_insertions kvs0 c k v c1 kvs :
  pushAll newCache kvs0 = Some c →
  k ≠ zeroK →
  index c !! k = None →
  Push c k v = Some c1 →
  NoDup kvs.*1 →
  (∀ k', k' ∈ kvs.*1 → index c1 !! k' = None) →
  Z.of_nat (length kvs) = cacheSize →
  ∃ c2, pushAll c1 kvs = Some c2 ∧ Lookup c2 k = Some (zeroV, false).
Proof.
  intros Hrun Hk0 Hk Hpush Hnd Hfresh Hlen.
  destruct (pushAll_slots_indexed kvs0 newCache c) as [Hwf Hsl];
    [by apply CacheFacts.wf_new|apply slots_indexed_new|done|].
  destruct (Push_absent c k v Hwf Hk) as (e & Hr & He & Heq).
  destruct (CacheFacts.Push_wf cacheSize cacheSize_pos cacheSize_int
              c k v Hwf) as (c' & Hpush' & Hwf').
  rewrite Hpush in Hpush'. injection Hpush' as <-.
  pose proof (Push_slots_indexed c k v c1 Hwf Hsl Hpush) as Hsl'.
  rewrite Heq in Hpush. injection Hpush as <-.
  destruct Hwf as [Hlen0 _ _].
  destruct (evicted_after kvs k v (next_slot c) _ Hwf' Hsl' Hk0)
    as (c2 & Hrun2 & Hi2); try done.
  - cbn. apply lookup_insert_eq.
  - unfold slice_get. cbn. rewrite decide_False by lia.
    apply list_lookup_insert_eq. lia.
  - unfold CacheOrder.remaining. cbn. rewrite decide_False by lia. lia.
  - exists c2. split; [done|]. unfold Cache.Lookup. by rewrite Hi2.
Qed.

(** *** What a hit returns *)

Local Abbreviation holds_only := (@holds_only K V _ _).

Lemma holds_only_mono c h h' :
  (∀ x, x ∈ h → x ∈ h') → holds_only c h → holds_only c h'.
Proof.
  intros Hsub Hh k i Hi. destruct (Hh k i Hi) as (v & Hs & Hin).
  exists v. split; [done|]. by apply Hsub.
Qed.

Lemma Push_holds_only c k v c1 h :
  wf c → holds_only c h → Push c k v = Some c1 →
  holds_only c1 (h ++ [(k, v)]).
Proof.
  intros Hwf Hh Hpush.
  destruct (index c !! k) as [j|] eqn:Hk.
  { unfold Cache.Push in Hpush. rewrite Hk in Hpush. injection Hpush as <-.
    eapply holds_only_mono; [|done]. intros x Hx.
    apply elem_of_app. by left. }
  destruct (Push_absent c k v Hwf Hk) as (e & Hr & He & Heq).
  rewrite Heq in Hpush. injection Hpush as <-.
  destruct Hwf as [Hlen _ _].
  intros k' i. cbn. destruct (decide (k' = k)) as [->|Hne].
  - rewrite lookup_insert_eq. intros [= <-]. exists v. split.
    + unfold slice_get. rewrite decide_False by lia.
      apply list_lookup_insert_eq. lia.
    + apply elem_of_app. right. apply list_elem_of_here.
  - rewrite lookup_insert_ne by done.
    intros [Hne' Hi]%lookup_delete_Some.
    destruct (Hh _ _ Hi) as (v0 & Hs & Hin).
    exists v0. split; [|apply elem_of_app; by left].
    revert Hs. unfold slice_get. case_decide; [done|]. intros Hs.
    rewrite list_lookup_insert_ne; [done|].
    intros Heq'. apply Z2Nat.inj in Heq'; [|lia..]. subst i.
    rewrite He in Hs. injection Hs as ->. done.
Qed.

Lemma pushAll_holds_only kvs : ∀ c c1 h,
  wf c → holds_only c h → pushAll c kvs = Some c1 →
  holds_only c1 (h ++ kvs).
Proof.
  induction kvs as [|[k v] kvs IH]; intros c c1 h Hwf Hh; cbn.
  - intros [= <-]. by rewrite app_nil_r.
  - destruct (CacheFacts.Push_wf cacheSize cacheSize_pos cacheSize_int
                c k v Hwf) as (c' & Hpush & Hwf').
    rewrite Hpush. intros Hrun.
    replace (h ++ (k, v) :: kvs) with ((h ++ [(k, v)]) ++ kvs)
      by (by rewrite <- app_assoc).
    eapply IH; [done| |done].
    exact (Push_holds_only c k v c' h Hwf Hh Hpush).
Qed.

(** X4. [Lookup] returns only what was pushed: on a cache built from a new
    cache by the [Push] calls [kvs], [Lookup] never panics; a hit for [k]
    with value [v] means that [(k, v)] is one of the calls; and a key that
    was never pushed is not found (the zero value and [false]). *)
Theorem Lookup_returns_pushed_values kvs c k :
  pushAll newCache kvs = Some c →
  is_Some (Lookup c k) ∧
  (∀ v, Lookup c k = Some (v, true) → (k, v) ∈ kvs) ∧
  (k ∉ kvs.*1 → Lookup c k = Some (zeroV, false)).
Proof.
  intros Hrun.
  pose proof (CacheFacts.wf_new zeroK zeroV cacheSize cacheSize_pos) as Hwf0.
  assert (holds_only c kvs) as Hh.
  { apply (pushAll_holds_only kvs newCache c [] Hwf0); [|done].
    intros k' i Hi. cbn in Hi. by rewrite lookup_empty in Hi. }
  unfold Cache.Lookup.
  destruct (index c !! k) as [i|] eqn:Hi.
  - destruct (Hh _ _ Hi) as (v0 & Hs & Hin). rewrite Hs. cbn.
    split; [by eexists|]. split.
    + by intros v [= <-].
    + intros Hnot. destruct Hnot.
      apply list_elem_of_fmap. by exists (k, v0).
  - split; [by eexists|]. split; [by intros v [=]|done].
Qed.

End ring_more.

(** The block cache, with keys and values in [N]. *)
Local Abbreviation bc_new := (newCache 0%N 0%N blockCacheSize).
Local Abbreviation bc_push := (Push (K := N) (V := N) blockCacheSize).
Local Abbreviation bc_pushAll := (pushAll (K := N) (V := N) blockCacheSize).

Lemma blockCacheSize_pos : 0 < blockCacheSize.
Proof. reflexivity. Defined.
Lemma blockCacheSize_int : blockCacheSize < int_half.
Proof. reflexivity. Defined.

(** After key 5 in slot 1, key 6 goes to slot 2, which held the zero
    identifier. *)
Lemma Push_evicts_next_slot_witness :
  let c := default bc_new (bc_push bc_new 5%N 50%N) in
  let c1 := default bc_new (bc_push c 6%N 60%N) in
  ∃ e,
    outputs c !! Z.to_nat (next_slot blockCacheSize c) = Some e ∧
    tip c1 = next_slot blockCacheSize c ∧
    Lookup 0%N c1 6%N = Some (60%N, true) ∧
    ∀ k', k' ≠ 6%N →
      Lookup 0%N c1 k' =
      if decide (k' = id e) then Some (0%N, false) else Lookup 0%N c k'.
Proof.
  intros c c1.
  apply (Push_evicts_next_slot 0%N blockCacheSize blockCacheSize_pos
           blockCacheSize_int c 6%N 60%N c1).
  - destruct (CacheFacts.Push_wf blockCacheSize blockCacheSize_pos
                blockCacheSize_int bc_new 5%N 50%N) as (c' & Hc & Hwf).
    + by apply CacheFacts.wf_new.
    + vm_compute in Hc. injection Hc as <-. exact Hwf.
  - vm_compute. reflexivity.
  - vm_compute. reflexivity.
Defined.

Lemma entry_outlives_pushes_witness :
  ∃ c1 c2,
    bc_push bc_new 5%N 50%N = Some c1 ∧
    bc_pushAll c1 ((5%N, 51%N) :: fresh_pairs 30) = Some c2 ∧
    Lookup 0%N c2 5%N = Some (50%N, true).
Proof.
  eexists.
  match goal with
  | |- ∃ c2, bc_push _ _ _ = Some ?c1 ∧ _ =>
      destruct (entry_outlives_pushes 0%N 0%N blockCacheSize
                  blockCacheSize_pos blockCacheSize_int
                  [] bc_new 5%N 50%N
                  (default bc_new (bc_push bc_new 5%N 50%N))
                  ((5%N, 51%N) :: fresh_pairs 30))
        as (c2 & Hrun & Hlook);
        [reflexivity|done|reflexivity|vm_compute; reflexivity
        |vm_compute; reflexivity|];
      exists c2; (split; [vm_compute; reflexivity|]); by split
  end.
Defined.

Lemma zero_identifier_evicted_early_witness :
  ∃ c2,
    bc_pushAll bc_new [(0%N, 7%N); (5%N, 50%N)] = Some c2 ∧
    Lookup 0%N c2 0%N = Some (0%N, false) ∧
    Lookup 0%N c2 5%N = Some (50%N, true) ∧
    size (index c2) = 1%nat.
Proof.
  apply (zero_identifier_evicted_early 0%N 0%N blockCacheSize
           blockCacheSize_pos blockCacheSize_int 5%N 7%N 50%N);
    [reflexivity|done].
Defined.

Lemma Lookup_returns_pushed_values_witness :
  is_Some (Lookup 0%N
             (default bc_new (bc_pushAll bc_new [(5%N, 50%N); (6%N, 60%N)]))
             5%N) ∧
  (∀ v, Lookup 0%N
          (default bc_new (bc_pushAll bc_new [(5%N, 50%N); (6%N, 60%N)]))
          5%N = Some (v, true) →
        (5%N, v) ∈ [(5%N, 50%N); (6%N, 60%N)]).
Proof.
  destruct (Lookup_returns_pushed_values 0%N 0%N blockCacheSize
              blockCacheSize_pos blockCacheSize_int
              [(5%N, 50%N); (6%N, 60%N)]
              (default bc_new (bc_pushAll bc_new [(5%N, 50%N); (6%N, 60%N)]))
              5%N) as (Hsome & Hhit & _).
  - vm_compute. reflexivity.
  - by split.
Defined.

(** Key 5, then 32 insertions of other keys: key 5 is gone. *)
Lemma entry_evicted_after_cacheSize_insertions_witness :
  ∃ c2,
    bc_pushAll (default bc_new (bc_push bc_new 5%N 50%N)) (fresh_pairs 32)
      = Some c2 ∧
    Lookup 0%N c2 5%N = Some (0%N, false).
Proof.
  apply (entry_evicted_after_cacheSize_insertions 0%N 0%N blockCacheSize
           blockCacheSize_pos blockCacheSize_int
           [] bc_new 5%N 50%N).
  - reflexivity.
  - done.
  - reflexivity.
  - vm_compute. reflexivity.
  - apply (bool_decide_unpack _). vm_compute. reflexivity.
  - intros k' Hk'. apply list_elem_of_In in Hk'. vm_compute in Hk'.
    repeat (destruct Hk' as [<-|Hk']; [vm_compute; reflexivity|]).
    destruct Hk'.
  - vm_compute. reflexivity.
Defined.

End CacheMoreFacts.

(** ** More on the transaction pool *)

Module PoolMoreFacts.
Import Pool PoolFacts.

Local Open Scope N_scope.

(** *** Related objects *)

(** The objects of [oidMap] are those of the transactions of the set. *)
Lemma oidMap_elem (ts : list Transaction) (oid : ObjectID) :
  oid ∈ oidMap ts ↔ ∃ t, t ∈ ts ∧ oid ∈ txnObjects t.
Proof.
  exact (elem_of_oidMap (λ _, 0) (λ _, 0%Z) (λ _, inr 0) 0%Z (λ _, 0)
           ts oid).
Qed.

Lemma visit_empty (it : iteration) : it ∅ = [].
Proof.
  apply Permutation_nil_r. rewrite (visit_perm it). by rewrite elements_empty.
Qed.

(** X9. [relatedObjectIDs] returns each related object once, whatever the
    iteration order: its result has no repetition, holds exactly the
    objects of the transactions of the set, is the same up to order for
    any reordering of the set, and is empty for the empty set. *)
Theorem relatedObjectIDs_is_a_set (it it' : iteration)
    (ts ts' : list Transaction) :
  ts ≡ₚ ts' →
  NoDup (relatedObjectIDs it ts) ∧
  (∀ oid, oid ∈ relatedObjectIDs it ts ↔
          ∃ t, t ∈ ts ∧ oid ∈ txnObjects t) ∧
  relatedObjectIDs it ts ≡ₚ relatedObjectIDs it' ts' ∧
  relatedObjectIDs it [] = [].
Proof.
  intros Hperm. split; [apply NoDup_visit|]. split.
  { intros oid. by rewrite elem_of_relatedObjectIDs, oidMap_elem. }
  split; [|apply visit_empty].
  assert (oidMap ts = oidMap ts') as Heq.
  { apply set_eq. intros oid. rewrite !oidMap_elem.
    split; intros (t & Ht & Ho); exists t; (split; [|done]).
    - by rewrite <- Hperm.
    - by rewrite Hperm. }
  unfold relatedObjectIDs. by rewrite !visit_perm, Heq.
Qed.

Section admission_more.
Variable setIDOf : list Transaction → TransactionSetID.
Variable EncodedLen : list Transaction → Z.
Variable isStandardTransactionSet : list Transaction → string + N.
Variable TransactionPoolSizeForFee : Z.
Variable requiredFeesToExtendTpoolAtSize : Z → Currency.

Local Abbreviation requiredFeesToExtendTpool :=
  (requiredFeesToExtendTpool TransactionPoolSizeForFee
     requiredFeesToExtendTpoolAtSize).
Local Abbreviation checkTransactionSetComposition :=
  (checkTransactionSetComposition setIDOf isStandardTransactionSet).
Local Abbreviation checkMinerFees :=
  (checkMinerFees TransactionPoolSizeForFee requiredFeesToExtendTpoolAtSize).
Local Abbreviation evict := (evict EncodedLen).
Local Abbreviation install := (install setIDOf EncodedLen).
Local Abbreviation mergeConflicts :=
  (mergeConflicts setIDOf EncodedLen isStandardTransactionSet
     TransactionPoolSizeForFee requiredFeesToExtendTpoolAtSize).
Local Abbreviation handleConflicts :=
  (handleConflicts setIDOf EncodedLen isStandardTransactionSet
     TransactionPoolSizeForFee requiredFeesToExtendTpoolAtSize).
Local Abbreviation acceptTransactionSet :=
  (acceptTransactionSet setIDOf EncodedLen isStandardTransactionSet
     TransactionPoolSizeForFee requiredFeesToExtendTpoolAtSize).
Local Abbreviation reachable :=
  (reachable setIDOf EncodedLen isStandardTransactionSet
     TransactionPoolSizeForFee requiredFeesToExtendTpoolAtSize).
Local Abbreviation buildConflictMap_None :=
  (buildConflictMap_None TransactionPoolSizeForFee
     requiredFeesToExtendTpoolAtSize).

Implicit Types (tp : TransactionPool) (ts : list Transaction)
  (t : Transaction) (sch : schedule) (txnFn : validator)
  (conflicts : list TransactionSetID)
  (cm : gmap TransactionID TransactionSetID).

(** *** The shape of a successful call *)

Lemma elem_of_concat {A} (ls : list (list A)) (x : A) :
  x ∈ concat ls ↔ ∃ l, l ∈ ls ∧ x ∈ l.
Proof.
  induction ls as [|l ls IH]; cbn.
  - split; [by intros ?%elem_of_nil|]. by intros (l & ?%elem_of_nil & _).
  - rewrite elem_of_app, IH. split.
    + intros [Hx|(l' & Hl' & Hx)].
      * exists l. split; [apply list_elem_of_here|done].
      * exists l'. split; [by apply list_elem_of_further|done].
    + intros (l' & [->|Hl']%elem_of_cons & Hx); [by left|].
      right. by exists l'.
Qed.

(** A successful [handleConflicts] removed a list of registered sets,
    without repetition, and installed a set [s] that holds all their
    transactions followed by transactions of the candidate. *)
Lemma handleConflicts_shape fuel sch lvl tp ts conflicts txnFn s tp' :
  handleConflicts fuel sch lvl tp ts conflicts txnFn = Some (Ok s, tp') →
  ∃ evicted cc,
    NoDup evicted ∧
    (∀ c, c ∈ evicted → is_Some (transactionSets tp !! c)) ∧
    (∀ c t, c ∈ evicted → t ∈ setOf tp c → t ∈ s) ∧
    transactionSets tp !! setIDOf s = None ∧
    s ≠ [] ∧
    txnFn s = inr cc ∧
    tp' = install (foldl evict tp evicted) s (diffObjects cc) cc.
Proof.
  intros (d & conflicts' & _ & Hne & _ & Hm)%handleConflicts_Ok.
  apply mergeConflicts_Ok in Hm as (sz & cc & Hs & Hc & _ & Hv & ->).
  apply checkTransactionSetComposition_fresh in Hc as [Hfresh _].
  set (cm := buildConflictMap tp conflicts') in *.
  exists (evict_order sch (supersetMap cm)), cc.
  split; [apply NoDup_visit|]. split.
  { intros c Hin%elem_of_visit.
    by apply supersetMap_registered in Hin as [_ ?]. }
  split.
  { intros c t Hin%elem_of_visit Ht. rewrite Hs. unfold mergeSuperset.
    apply elem_of_app. left. apply elem_of_concat.
    exists (setOf tp c). split; [|done].
    apply list_elem_of_fmap. exists c. split; [done|].
    by apply elem_of_visit. }
  split; [done|]. split; [|done].
  rewrite Hs. unfold mergeSuperset. intros Hnil.
  apply app_eq_nil in Hnil as [_ ?]. done.
Qed.

(** The same for [acceptTransactionSet]; on the conflict-free path
    nothing is removed. *)
Lemma acceptTransactionSet_shape sch confirmed tp ts txnFn s tp' :
  acceptTransactionSet sch confirmed tp ts txnFn = Some (Ok s, tp') →
  ∃ evicted oids cc,
    NoDup evicted ∧
    (∀ c, c ∈ evicted → is_Some (transactionSets tp !! c)) ∧
    (∀ c t, c ∈ evicted → t ∈ setOf tp c → t ∈ s) ∧
    transactionSets tp !! setIDOf s = None ∧
    s ≠ [] ∧
    txnFn s = inr cc ∧
    tp' = install (foldl evict tp evicted) s oids cc.
Proof.
  intros Hrun. apply acceptTransactionSet_Ok in Hrun
    as (Hne & setSize & Hc & _ & [(_ & -> & cc & Hv & ->)|[_ Hh]]).
  - apply checkTransactionSetComposition_fresh in Hc as [Hfresh _].
    exists [], (relatedObjectIDs (oid_order sch 0)
                  (filter (λ txn, confirmed (ID txn) = false) ts)), cc.
    split; [apply NoDup_nil_2|].
    split; [by intros c ?%elem_of_nil|].
    split; [by intros c t ?%elem_of_nil|]. done.
  - apply handleConflicts_shape in Hh
      as (evicted & cc & H1 & H2 & H3 & H4 & H5 & H6 & H7).
    by exists evicted, (diffObjects cc), cc.
Qed.

(** The registry after the removal of [evicted] and the installation of
    [s]. *)
Lemma shape_sets tp evicted s oids cc k :
  NoDup evicted →
  (∀ c, c ∈ evicted → is_Some (transactionSets tp !! c)) →
  transactionSets (install (foldl evict tp evicted) s oids cc) !! k =
  if decide (k = setIDOf s) then Some s
  else if decide (k ∈ evicted) then None
  else transactionSets tp !! k.
Proof.
  intros Hnd Hreg.
  destruct (foldl_evict EncodedLen evicted tp Hnd Hreg) as (Hsets & _).
  cbn. destruct (decide (k = setIDOf s)) as [->|Hne].
  - by rewrite lookup_insert_eq.
  - rewrite lookup_insert_ne by done. apply Hsets.
Qed.

Lemma shape_diffs tp evicted s oids cc k :
  NoDup evicted →
  (∀ c, c ∈ evicted → is_Some (transactionSets tp !! c)) →
  transactionSetDiffs (install (foldl evict tp evicted) s oids cc) !! k =
  if decide (k = setIDOf s) then Some cc
  else if decide (k ∈ evicted) then None
  else transactionSetDiffs tp !! k.
Proof.
  intros Hnd Hreg.
  destruct (foldl_evict EncodedLen evicted tp Hnd Hreg) as (_ & Hdiffs & _).
  cbn. destruct (decide (k = setIDOf s)) as [->|Hne].
  - by rewrite lookup_insert_eq.
  - rewrite lookup_insert_ne by done. apply Hdiffs.
Qed.

Lemma shape_heights tp evicted s oids cc i :
  NoDup evicted →
  (∀ c, c ∈ evicted → is_Some (transactionSets tp !! c)) →
  transactionHeights (install (foldl evict tp evicted) s oids cc) !! i =
  match transactionHeights tp !! i with
  | Some h => Some h
  | None => if decide (i ∈ ID <$> s) then Some (blockHeight tp) else None
  end.
Proof.
  intros Hnd Hreg.
  destruct (foldl_evict EncodedLen evicted tp Hnd Hreg)
    as (_ & _ & _ & Hh & Hbh & _).
  cbn. rewrite recordHeights_lookup, Hh, Hbh. done.
Qed.

Lemma setOf_elem tp c t :
  t ∈ setOf tp c ↔ ∃ s, transactionSets tp !! c = Some s ∧ t ∈ s.
Proof.
  unfold setOf. destruct (transactionSets tp !! c) as [s|]; cbn.
  - split; [by exists s|]. by intros (s' & [= <-] & ?).
  - split; [by intros ?%elem_of_nil|]. by intros (s' & [=] & _).
Qed.

(** *** Transactions in the pool after a successful call *)

Lemma handleConflicts_keeps_pooled
    fuel sch lvl tp ts conflicts txnFn s tp' k0 s0 t :
  handleConflicts fuel sch lvl tp ts conflicts txnFn = Some (Ok s, tp') →
  transactionSets tp !! k0 = Some s0 → t ∈ s0 →
  ∃ k1 s1, transactionSets tp' !! k1 = Some s1 ∧ t ∈ s1.
Proof.
  intros (evicted & cc & Hnd & Hreg & Hall & Hfresh & _ & _ & ->)
    %handleConflicts_shape Hk0 Ht.
  destruct (decide (k0 ∈ evicted)) as [Hin|Hout].
  - exists (setIDOf s), s. rewrite shape_sets by done.
    rewrite decide_True by done. split; [done|].
    apply (Hall k0); [done|]. apply setOf_elem. by exists s0.
  - exists k0, s0. rewrite shape_sets by done.
    rewrite decide_False by congruence. by rewrite decide_False.
Qed.

(** X5. A successful call drops no pooled transaction: every transaction
    of a set registered before the call is in a set registered after it
    (the sets that a merge removes are part of the superset it
    installs). *)
Theorem pooled_transactions_stay_pooled
    sch confirmed tp ts txnFn s tp' k0 s0 t :
  acceptTransactionSet sch confirmed tp ts txnFn = Some (Ok s, tp') →
  transactionSets tp !! k0 = Some s0 → t ∈ s0 →
  ∃ k1 s1, transactionSets tp' !! k1 = Some s1 ∧ t ∈ s1.
Proof.
  intros (evicted & oids & cc & Hnd & Hreg & Hall & Hfresh & _ & _ & ->)
    %acceptTransactionSet_shape Hk0 Ht.
  destruct (decide (k0 ∈ evicted)) as [Hin|Hout].
  - exists (setIDOf s), s. rewrite shape_sets by done.
    rewrite decide_True by done. split; [done|].
    apply (Hall k0); [done|]. apply setOf_elem. by exists s0.
  - exists k0, s0. rewrite shape_sets by done.
    rewrite decide_False by congruence. by rewrite decide_False.
Qed.

Lemma handleConflicts_pools_candidate fuel :
  ∀ sch lvl tp ts conflicts txnFn s tp' t,
  handleConflicts fuel sch lvl tp ts conflicts txnFn = Some (Ok s, tp') →
  t ∈ ts →
  ∃ k1 s1, transactionSets tp' !! k1 = Some s1 ∧ ID t ∈ ID <$> s1.
Proof.
  induction fuel as [|fuel IH];
    intros sch lvl tp ts conflicts txnFn s tp' t Hrun Ht; [done|].
  pose proof Hrun as Hwhole.
  cbn [Pool.handleConflicts] in Hrun.
  destruct (buildConflictMap tp conflicts !! ID t) as [c|] eqn:Hcm.
  - apply buildConflictMap_Some in Hcm as (_ & t0 & Ht0 & Hid).
    apply setOf_elem in Ht0 as (s0 & Hs0 & Ht0).
    destruct (handleConflicts_keeps_pooled _ _ _ _ _ _ _ _ _ _ _ _
                Hwhole Hs0 Ht0) as (k1 & s1 & Hk1 & Hin).
    exists k1, s1. split; [done|]. rewrite <- Hid.
    by apply list_elem_of_fmap_2.
  - assert (t ∈ dedup (buildConflictMap tp conflicts) ts) as Hd
      by by apply dedup_elem.
    case_decide as Hemp; [done|]. case_decide as Hlt.
    + by eapply IH.
    + injection Hrun as Hm.
      pose proof Hm as (sz & cc & Hs & _)%mergeConflicts_Ok.
      apply handleConflicts_shape in Hwhole
        as (evicted & cc' & Hnd & Hreg & _ & _ & _ & _ & ->).
      exists (setIDOf s), s. rewrite shape_sets by done.
      rewrite decide_True by done. split; [done|].
      apply list_elem_of_fmap_2. rewrite Hs. unfold mergeSuperset.
      apply elem_of_app. by right.
Qed.

(** X6. After a successful call every unconfirmed transaction of the
    candidate is in the pool: a registered set holds a transaction with
    its identifier (the transaction itself, or the pooled one that made
    the resolver discard it as a duplicate). *)
Theorem candidate_transactions_are_pooled
    sch confirmed tp ts txnFn s tp' t :
  acceptTransactionSet sch confirmed tp ts txnFn = Some (Ok s, tp') →
  t ∈ ts → confirmed (ID t) = false →
  ∃ k1 s1, transactionSets tp' !! k1 = Some s1 ∧ ID t ∈ ID <$> s1.
Proof.
  intros Hrun Ht Hconf.
  assert (t ∈ filter (λ txn, confirmed (ID txn) = false) ts) as Hin
    by by apply (list_elem_of_filter (λ txn, confirmed (ID txn) = false)).
  apply acceptTransactionSet_Ok in Hrun
    as (_ & setSize & _ & _ & [(_ & -> & cc & _ & ->)|[_ Hh]]).
  - eexists _, _. cbn. rewrite lookup_insert_eq. split; [done|].
    by apply list_elem_of_fmap_2.
  - by eapply handleConflicts_pools_candidate.
Qed.

(** *** The registry of reachable pools *)

(** X7. In every pool reached from an empty pool by successful calls,
    every registered set is non-empty and is registered under its own
    identifier, and [transactionSets] and [transactionSetDiffs] have the
    same keys. *)
Theorem registry_consistent tp k :
  reachable tp →
  (∀ s, transactionSets tp !! k = Some s → s ≠ [] ∧ k = setIDOf s) ∧
  (is_Some (transactionSets tp !! k) ↔
   is_Some (transactionSetDiffs tp !! k)).
Proof.
  intros Hreach. revert k.
  induction Hreach as [h|tp sch confirmed ts txnFn s tp' _ IH Hrun];
    intros k.
  - cbn. rewrite !lookup_empty. split; [done|].
    split; by intros [? ?].
  - apply acceptTransactionSet_shape in Hrun
      as (evicted & oids & cc & Hnd & Hreg & _ & _ & Hne & _ & ->).
    rewrite shape_sets, shape_diffs by done.
    destruct (decide (k = setIDOf s)) as [->|Hk].
    { split; [by intros s' [= <-]|]. split; by eexists. }
    destruct (decide (k ∈ evicted)).
    { split; [done|]. split; by intros [? ?]. }
    apply IH.
Qed.

(** X8. In every such pool, every transaction of a registered set has a
    first-seen height in [transactionHeights]. *)
Theorem pooled_transactions_have_heights tp k s t :
  reachable tp →
  transactionSets tp !! k = Some s → t ∈ s →
  is_Some (transactionHeights tp !! ID t).
Proof.
  intros Hreach. revert k s t.
  induction Hreach as [h|tp sch confirmed ts txnFn s0 tp' _ IH Hrun];
    intros k s t.
  - cbn. by rewrite lookup_empty.
  - apply acceptTransactionSet_shape in Hrun
      as (evicted & oids & cc & Hnd & Hreg & _ & _ & _ & _ & ->).
    rewrite shape_sets, shape_heights by done.
    destruct (decide (k = setIDOf s0)) as [->|Hk].
    + intros [= <-] Ht.
      destruct (transactionHeights tp !! ID t); [by eexists|].
      rewrite decide_True by (by apply list_elem_of_fmap_2). by eexists.
    + case_decide; [done|]. intros Hs Ht.
      destruct (IH _ _ _ Hs Ht) as [h Hh]. rewrite Hh. by eexists.
Qed.

(** *** Errors and their causes *)

Local Abbreviation prereq_prefix := PoolMessages.prereq_prefix.
Local Abbreviation invalid_prefix := PoolMessages.invalid_prefix.

Lemma checkTransactionSetComposition_error tp ts e :
  checkTransactionSetComposition tp ts = Err e →
  (e = ErrDuplicateTransactionSet ∧
   is_Some (transactionSets tp !! setIDOf ts)) ∨
  (∃ m, e = StandardError m ∧ isStandardTransactionSet ts = inl m).
Proof.
  unfold Pool.checkTransactionSetComposition.
  destruct (transactionSets tp !! setIDOf ts) as [x|].
  - intros [= <-]. left. split; [done|by eexists].
  - destruct (isStandardTransactionSet ts) as [m|sz] eqn:Hstd; [|done].
    intros [= <-]. right. by exists m.
Qed.

Lemma checkMinerFees_error tp ts setSize e :
  checkMinerFees tp ts setSize = Err e →
  e = errLowMinerFees ∧ requiredFeesToExtendTpool tp ≠ ZeroCurrency.
Proof.
  unfold Pool.checkMinerFees.
  destruct (Mul64 _ setSize) as [req|] eqn:Hreq; [|done].
  destruct (sumMinerFees ts) as [fees|]; [|done].
  case_decide as Hlt; [|done]. intros [= <-]. split; [done|].
  intros Hzero. rewrite Hzero in Hreq. unfold Mul64, ZeroCurrency in Hreq.
  case_decide; [|done]. injection Hreq as <-. lia.
Qed.

Lemma mergeConflicts_error sch tp cm d txnFn e tp' :
  mergeConflicts sch tp cm d txnFn = (Err e, tp') →
  let x := mergeSuperset sch tp cm d in
  (e = ErrDuplicateTransactionSet ∧
   is_Some (transactionSets tp !! setIDOf x)) ∨
  (∃ m, e = StandardError m ∧ isStandardTransactionSet x = inl m) ∨
  (e = errLowMinerFees ∧ requiredFeesToExtendTpool tp ≠ ZeroCurrency) ∨
  (∃ err, e = ConsensusConflict (String.append prereq_prefix err) ∧
          txnFn x = inl err).
Proof.
  intros Hm x. unfold Pool.mergeConflicts in Hm. fold x in Hm.
  destruct (checkTransactionSetComposition tp x) as [sz|e0|] eqn:Hc;
    [| |done].
  - destruct (checkMinerFees tp x sz) as [[]|e1|] eqn:Hf; [| |done].
    + destruct (txnFn x) as [err|cc] eqn:Hv; [|done].
      injection Hm as <- <-. do 3 right. by exists err.
    + injection Hm as <- <-. right. right. left.
      by eapply checkMinerFees_error.
  - injection Hm as <- <-.
    apply checkTransactionSetComposition_error in Hc as [?|?]; auto.
Qed.

(** An error of [handleConflicts] is the duplicate error or an error of
    the merge of some set [x]. *)
Lemma handleConflicts_error fuel : ∀ sch lvl tp ts conflicts txnFn e tp',
  handleConflicts fuel sch lvl tp ts conflicts txnFn = Some (Err e, tp') →
  e = ErrDuplicateTransactionSet ∨
  (∃ m x, e = StandardError m ∧ isStandardTransactionSet x = inl m) ∨
  (e = errLowMinerFees ∧ requiredFeesToExtendTpool tp ≠ ZeroCurrency) ∨
  (∃ err x, e = ConsensusConflict (String.append prereq_prefix err) ∧
            txnFn x = inl err).
Proof.
  induction fuel as [|fuel IH]; intros sch lvl tp ts conflicts txnFn e tp';
    [done|].
  cbn [Pool.handleConflicts].
  case_decide; [intros [= <- <-]; by left|].
  case_decide; [by apply IH|].
  intros [= Hm].
  apply mergeConflicts_error in Hm
    as [[? _]|[(m & ? & ?)|[?|(err & ? & ?)]]]; eauto 10.
Qed.

(** X10. Each error of [acceptTransactionSet] tells its cause:
    [errEmptySet] is returned exactly for the empty candidate;
    [ErrDuplicateTransactionSet] only for a non-empty one;
    [errLowMinerFees] only when the pool requires a fee; a standardness
    error is an error of [isStandardTransactionSet] for some set; and a
    consensus conflict carries the ledger's message for a set that it
    rejected, after the prefix of the conflict-free path when the
    candidate had no conflicts and after the prefix of the resolver when
    it had. *)
Theorem acceptTransactionSet_error_causes sch confirmed tp ts txnFn :
  (ts = [] →
   acceptTransactionSet sch confirmed tp ts txnFn
     = Some (Err errEmptySet, tp)) ∧
  ∀ e tp',
    acceptTransactionSet sch confirmed tp ts txnFn = Some (Err e, tp') →
    let ts' := filter (λ txn, confirmed (ID txn) = false) ts in
    let conflicts :=
      lookupConflicts tp (relatedObjectIDs (oid_order sch 0) ts') in
    match e with
    | errEmptySet => ts = []
    | ErrDuplicateTransactionSet => ts ≠ []
    | errLowMinerFees =>
        ts' ≠ [] ∧ requiredFeesToExtendTpool tp ≠ ZeroCurrency
    | StandardError m => ∃ x, isStandardTransactionSet x = inl m
    | ConsensusConflict msg =>
        (∃ err, msg = String.append invalid_prefix err ∧ conflicts = [] ∧
                txnFn ts' = inl err) ∨
        (∃ err x, msg = String.append prereq_prefix err ∧ conflicts ≠ [] ∧
                  txnFn x = inl err)
    end.
Proof.
  split.
  { intros ->. done. }
  intros e tp'. unfold Pool.acceptTransactionSet.
  case_decide as Hemp.
  { intros [= <- <-]. by destruct ts. }
  assert (ts ≠ []) as Hne by (by intros ->).
  case_decide as Hemp'; [by intros [= <- <-]|].
  set (ts' := filter (λ txn, confirmed (ID txn) = false) ts) in *.
  assert (ts' ≠ []) as Hne' by (intros Hnil; by rewrite Hnil in Hemp').
  destruct (checkTransactionSetComposition tp ts') as [sz|e0|] eqn:Hc;
    [| |done].
  2:{ intros [= <- <-].
      apply checkTransactionSetComposition_error in Hc
        as [[-> _]|(m & -> & Hm)]; [done|by exists ts']. }
  destruct (checkMinerFees tp ts' sz) as [[]|e1|] eqn:Hf; [| |done].
  2:{ intros [= <- <-]. by apply checkMinerFees_error in Hf as [-> ?]. }
  cbn zeta.
  set (conflicts :=
         lookupConflicts tp (relatedObjectIDs (oid_order sch 0) ts')).
  case_decide as Hconf.
  - assert (conflicts ≠ []) as Hcne.
    { intros Hnil. rewrite Hnil in Hconf. cbn in Hconf. lia. }
    intros Hh. apply handleConflicts_error in Hh
      as [->|[(m & x & -> & Hm)|[[-> ?]|(err & x & -> & Hv)]]].
    + done.
    + by exists x.
    + done.
    + right. by exists err, x.
  - assert (conflicts = []) as Hnil.
    { destruct conflicts; [done|]. cbn in Hconf. lia. }
    destruct (txnFn ts') as [err|cc] eqn:Hv; [|done].
    intros [= <- <-]. left. by exists err.
Qed.

(** X11. While [transactionListSize] is below
    [TransactionPoolSizeForFee] no set is rejected for its fees:
    [acceptTransactionSet] does not return [errLowMinerFees], on either
    path and whatever the fees of the candidate and of the sets it is
    merged with. *)
Theorem no_fee_required_below_threshold sch confirmed tp ts txnFn r tp' :
  (transactionListSize tp < TransactionPoolSizeForFee)%Z →
  acceptTransactionSet sch confirmed tp ts txnFn = Some (r, tp') →
  r ≠ Err errLowMinerFees.
Proof.
  intros Hsmall Hrun ->.
  assert (requiredFeesToExtendTpool tp = ZeroCurrency) as Hzero.
  { unfold Pool.requiredFeesToExtendTpool. by rewrite decide_True. }
  revert Hrun. unfold Pool.acceptTransactionSet.
  case_decide; [done|]. case_decide; [done|].
  destruct (checkTransactionSetComposition tp _) as [sz|e0|] eqn:Hc;
    [| |done].
  2:{ intros [= ->].
      by apply checkTransactionSetComposition_error in Hc
        as [[? _]|(m & ? & _)]. }
  destruct (checkMinerFees tp _ sz) as [[]|e1|] eqn:Hf; [| |done].
  2:{ intros _. by apply checkMinerFees_error in Hf as [_ ?]. }
  case_decide.
  - intros Hh. apply handleConflicts_error in Hh
      as [?|[(m & x & ? & _)|[[_ ?]|(err & x & ? & _)]]]; done.
  - destruct (txnFn _); done.
Qed.

(** *** Conflicts that are no longer registered *)

Lemma buildConflictMap_stale tp conflicts :
  (∀ c, c ∈ conflicts → transactionSets tp !! c = None) →
  buildConflictMap tp conflicts = ∅.
Proof.
  intros Hstale. apply map_eq. intros i. rewrite lookup_empty.
  apply buildConflictMap_None. intros c t Hc Ht.
  apply setOf_elem in Ht as (s & Hs & _). by rewrite (Hstale c Hc) in Hs.
Qed.

(** X12. Entries of [knownObjects] that name sets which are no longer in
    [transactionSets] do not hold a candidate back: when none of the
    listed conflicts is registered, [handleConflicts] prunes nothing,
    merges the candidate with nothing and removes nothing; the call is
    the composition check, the fee gate and the ledger's validation of
    the candidate itself, and on success it returns the candidate and
    installs it with the objects of the diff. *)
Theorem stale_conflicts_are_ignored fuel sch lvl tp ts conflicts txnFn :
  ts ≠ [] →
  (∀ c, c ∈ conflicts → transactionSets tp !! c = None) →
  mergeSuperset sch tp ∅ ts = ts ∧
  handleConflicts (S fuel) sch lvl tp ts conflicts txnFn
    = Some (mergeConflicts sch tp ∅ ts txnFn) ∧
  ∀ s tp',
    handleConflicts (S fuel) sch lvl tp ts conflicts txnFn
      = Some (Ok s, tp') →
    s = ts ∧ ∃ cc, txnFn ts = inr cc ∧
                   tp' = install tp ts (diffObjects cc) cc.
Proof.
  intros Hne Hstale.
  assert (mergeSuperset sch tp ∅ ts = ts) as Hsuper.
  { unfold mergeSuperset, supersetMap.
    by rewrite map_img_empty_L, visit_empty. }
  assert (handleConflicts (S fuel) sch lvl tp ts conflicts txnFn
          = Some (mergeConflicts sch tp ∅ ts txnFn)) as Hrun.
  { cbn [Pool.handleConflicts].
    rewrite (buildConflictMap_stale tp conflicts Hstale).
    rewrite (dedup_id ∅ ts) by (intros; apply lookup_empty).
    rewrite decide_False by (by destruct ts).
    by rewrite decide_False by lia. }
  split; [done|]. split; [done|].
  intros s tp'. rewrite Hrun. intros [= Hm].
  apply mergeConflicts_Ok in Hm as (sz & cc & Hs & _ & _ & Hv & ->).
  rewrite Hsuper in Hs. subst s. split; [done|]. exists cc.
  split; [done|]. unfold supersetMap.
  by rewrite map_img_empty_L, visit_empty.
Qed.

(** *** Termination for any conflict list *)

(** X13. Whatever the conflict list, [handleConflicts] returns within
    [length ts + 1] nested calls, since every recursive call is made on a
    strictly shorter set: that much fuel is enough, and more fuel does not
    change the result. On the empty candidate it returns
    [ErrDuplicateTransactionSet] at once. *)
Theorem handleConflicts_terminates fuel sch lvl tp ts conflicts txnFn :
  (length ts < fuel)%nat →
  (∃ res,
     handleConflicts fuel sch lvl tp ts conflicts txnFn = Some res ∧
     ∀ fuel', (fuel ≤ fuel')%nat →
       handleConflicts fuel' sch lvl tp ts conflicts txnFn = Some res) ∧
  (ts = [] →
   handleConflicts fuel sch lvl tp ts conflicts txnFn
     = Some (Err ErrDuplicateTransactionSet, tp)).
Proof.
  intros Hlen. split.
  - destruct (handleConflicts_total setIDOf EncodedLen
                isStandardTransactionSet TransactionPoolSizeForFee
                requiredFeesToExtendTpoolAtSize fuel sch lvl tp ts
                conflicts txnFn Hlen) as [res Hres].
    exists res. split; [done|]. intros fuel' Hle.
    by eapply handleConflicts_fuel_mono.
  - intros ->. destruct fuel as [|fuel]; [cbn in Hlen; lia|]. done.
Qed.

(** *** The fee sum *)

Lemma totalFees_perm ts ts' : ts ≡ₚ ts' → totalFees ts = totalFees ts'.
Proof.
  induction 1 as [|t l l' _ IH|t1 t2 l|l1 l2 l3 _ IH1 _ IH2];
    cbn [totalFees foldr].
  - done.
  - fold (totalFees l) (totalFees l'). by rewrite IH.
  - lia.
  - by rewrite IH1.
Qed.

Lemma totalFees_app ts ts' : totalFees (ts ++ ts') = totalFees ts + totalFees ts'.
Proof.
  induction ts as [|t ts IH]; cbn [totalFees foldr app]; [done|].
  fold (totalFees (ts ++ ts')) (totalFees ts). rewrite IH. lia.
Qed.

(** X14. The fee loop adds up all miner fees of all transactions and
    panics exactly when that sum is not below 2^128, wherever in the set
    the overflow happens: its outcome is the same for every order of the
    transactions; and the loop run on a concatenation of any two sets
    gives the [Add] of the results of the loop on the two parts, a panic
    if either part or the final addition panics. *)
Theorem sumMinerFees_order_free :
  (∀ ts ts', ts ≡ₚ ts' → sumMinerFees ts = sumMinerFees ts') ∧
  (∀ ts,
     (sumMinerFees ts = None ↔ currency_limit ≤ totalFees ts) ∧
     (∀ fees, sumMinerFees ts = Some fees → fees = totalFees ts)) ∧
  (∀ ts1 ts2,
     sumMinerFees (ts1 ++ ts2) =
     sumMinerFees ts1 ≫= λ a, sumMinerFees ts2 ≫= λ b, Add a b) ∧
  (∀ ts1 ts2, totalFees (ts1 ++ ts2) = totalFees ts1 + totalFees ts2).
Proof.
  split; [|split; [|split]].
  - intros ts ts' Hperm. rewrite !sumMinerFees_total.
    by rewrite (totalFees_perm ts ts' Hperm).
  - intros ts. rewrite !sumMinerFees_total. split.
    + case_decide; split; (done || lia).
    + intros fees. case_decide; [by intros [= <-]|done].
  - intros ts1 ts2. rewrite !sumMinerFees_total, totalFees_app.
    destruct (decide (totalFees ts1 < currency_limit)) as [H1|H1];
      destruct (decide (totalFees ts2 < currency_limit)) as [H2|H2];
      cbn [mbind option_bind]; [done|by rewrite decide_False by lia..].
  - apply totalFees_app.
Qed.

End admission_more.

Import Scenario.

Local Abbreviation run_accept :=
  (acceptTransactionSet Scenario.setIDOf Scenario.EncodedLen
     Scenario.isStandardTransactionSet Scenario.TransactionPoolSizeForFee
     Scenario.requiredFeesToExtendTpoolAtSize).
Local Abbreviation run_handle :=
  (handleConflicts Scenario.setIDOf Scenario.EncodedLen
     Scenario.isStandardTransactionSet Scenario.TransactionPoolSizeForFee
     Scenario.requiredFeesToExtendTpoolAtSize).
Local Abbreviation run_reachable :=
  (reachable Scenario.setIDOf Scenario.EncodedLen
     Scenario.isStandardTransactionSet Scenario.TransactionPoolSizeForFee
     Scenario.requiredFeesToExtendTpoolAtSize).

(** The pool after [[txB; txC]] was submitted to the pool that holds
    [[txA]]. *)
Local Abbreviation poolABC_state :=
  (default (emptyPool 10)
     (snd <$> submit ledger unconfirmed poolA_state [txB; txC])).

Lemma poolA_reachable : run_reachable poolA_state.
Proof.
  eapply (reachable_accept _ _ _ _ _ (emptyPool 10) sorted_schedule
            unconfirmed [txA] ledger [txA]).
  - apply reachable_empty.
  - vm_compute. reflexivity.
Defined.

(** [txA], pooled alone, is in the superset after the merge. *)
Lemma pooled_transactions_stay_pooled_witness :
  ∃ k1 s1, transactionSets poolABC_state !! k1 = Some s1 ∧ txA ∈ s1.
Proof.
  apply (pooled_transactions_stay_pooled Scenario.setIDOf
           Scenario.EncodedLen Scenario.isStandardTransactionSet
           Scenario.TransactionPoolSizeForFee
           Scenario.requiredFeesToExtendTpoolAtSize
           sorted_schedule unconfirmed poolA_state [txB; txC] ledger
           [txA; txB; txC] poolABC_state (Scenario.setIDOf [txA]) [txA]).
  - vm_compute. reflexivity.
  - vm_compute. reflexivity.
  - apply list_elem_of_here.
Defined.

(** [[txA; txB]] submitted to the pool that holds [[txA]]: [txA] is
    pruned, and both identifiers are pooled afterwards. *)
Lemma candidate_transactions_are_pooled_witness :
  ∃ k1 s1,
    transactionSets
      (default (emptyPool 10)
         (snd <$> submit ledger unconfirmed poolA_state [txA; txB]))
      !! k1 = Some s1 ∧
    ID txA ∈ ID <$> s1.
Proof.
  apply (candidate_transactions_are_pooled Scenario.setIDOf
           Scenario.EncodedLen Scenario.isStandardTransactionSet
           Scenario.TransactionPoolSizeForFee
           Scenario.requiredFeesToExtendTpoolAtSize
           sorted_schedule unconfirmed poolA_state [txA; txB] ledger
           [txB]).
  - vm_compute. reflexivity.
  - apply list_elem_of_here.
  - reflexivity.
Defined.

Lemma registry_consistent_witness :
  (∀ s, transactionSets poolA_state !! Scenario.setIDOf [txA] = Some s →
        s ≠ [] ∧ Scenario.setIDOf [txA] = Scenario.setIDOf s) ∧
  (is_Some (transactionSets poolA_state !! Scenario.setIDOf [txA]) ↔
   is_Some (transactionSetDiffs poolA_state !! Scenario.setIDOf [txA])).
Proof.
  apply (registry_consistent Scenario.setIDOf Scenario.EncodedLen
           Scenario.isStandardTransactionSet
           Scenario.TransactionPoolSizeForFee
           Scenario.requiredFeesToExtendTpoolAtSize).
  apply poolA_reachable.
Defined.

Lemma pooled_transactions_have_heights_witness :
  is_Some (transactionHeights poolA_state !! ID txA).
Proof.
  apply (pooled_transactions_have_heights Scenario.setIDOf
           Scenario.EncodedLen Scenario.isStandardTransactionSet
           Scenario.TransactionPoolSizeForFee
           Scenario.requiredFeesToExtendTpoolAtSize
           poolA_state (Scenario.setIDOf [txA]) [txA] txA).
  - apply poolA_reachable.
  - vm_compute. reflexivity.
  - apply list_elem_of_here.
Defined.

Lemma relatedObjectIDs_is_a_set_witness :
  NoDup (relatedObjectIDs sorted_iteration [txA; txC]) ∧
  relatedObjectIDs sorted_iteration [txA; txC]
    ≡ₚ relatedObjectIDs sorted_iteration [txC; txA].
Proof.
  destruct (relatedObjectIDs_is_a_set sorted_iteration sorted_iteration
              [txA; txC] [txC; txA]) as (Hnd & _ & Hperm & _).
  - apply perm_swap.
  - by split.
Defined.

(** The pool that holds [[txA]] is below the size from which fees are
    required: [[txPoor]] is not rejected for its fees. *)
Lemma no_fee_required_below_threshold_witness :
  fst <$> submit ledger unconfirmed poolA_state [txPoor]
    ≠ Some (Err errLowMinerFees).
Proof.
  destruct (submit ledger unconfirmed poolA_state [txPoor])
    as [[r tp']|] eqn:Hrun; [|done].
  cbn. intros [= ->].
  by apply (no_fee_required_below_threshold Scenario.setIDOf
              Scenario.EncodedLen Scenario.isStandardTransactionSet
              Scenario.TransactionPoolSizeForFee
              Scenario.requiredFeesToExtendTpoolAtSize
              sorted_schedule unconfirmed poolA_state [txPoor] ledger
              (Err errLowMinerFees) tp'); [vm_compute; reflexivity|exact Hrun|].
Defined.

(** A conflict list that names a set which is not registered. *)
Lemma stale_conflicts_are_ignored_witness :
  fst <$> run_handle 1%nat sorted_schedule 1%nat (emptyPool 10) [txA] [777]
            ledger
  = Some (Ok [txA]).
Proof.
  destruct (stale_conflicts_are_ignored Scenario.setIDOf
              Scenario.EncodedLen Scenario.isStandardTransactionSet
              Scenario.TransactionPoolSizeForFee
              Scenario.requiredFeesToExtendTpoolAtSize
              0%nat sorted_schedule 1%nat (emptyPool 10) [txA] [777]
              ledger) as (_ & Hrun & _).
  - done.
  - intros c _. apply lookup_empty.
  - rewrite Hrun. vm_compute. reflexivity.
Defined.

(** The pool that holds [[txA]] and [[txB]]. *)
Local Abbreviation poolAB_state :=
  (default (emptyPool 10) (submitAll (emptyPool 10) [[txA]; [txB]])).

(** A conflict list that names only the set of [txA], for the candidate
    [[txA; txB; txRich]]: the recursion prunes [txA], then [txB], and
    needs three nested calls. *)
Lemma handleConflicts_terminates_witness :
  ∃ res,
    run_handle 4%nat sorted_schedule 1%nat poolAB_state
      [txA; txB; txRich] [Scenario.setIDOf [txA]] ledger = Some res ∧
    run_handle 3%nat sorted_schedule 1%nat poolAB_state
      [txA; txB; txRich] [Scenario.setIDOf [txA]] ledger
      ≠ None ∧
    run_handle 2%nat sorted_schedule 1%nat poolAB_state
      [txA; txB; txRich] [Scenario.setIDOf [txA]] ledger
      = None ∧
    fst res = Ok [txRich].
Proof.
  destruct (handleConflicts_terminates Scenario.setIDOf
              Scenario.EncodedLen Scenario.isStandardTransactionSet
              Scenario.TransactionPoolSizeForFee
              Scenario.requiredFeesToExtendTpoolAtSize
              4%nat sorted_schedule 1%nat poolAB_state
              [txA; txB; txRich] [Scenario.setIDOf [txA]] ledger)
    as [(res & Hres & _) _].
  - cbn. lia.
  - exists res. split; [done|].
    split; [vm_compute; discriminate|]. split; [vm_compute; reflexivity|].
    vm_compute in Hres. injection Hres as <-. reflexivity.
Defined.

Lemma sumMinerFees_order_free_witness :
  sumMinerFees [txRich; txPoor] = sumMinerFees [txPoor; txRich] ∧
  sumMinerFees [txRich; txPoor] = Some (10 ^ 22 + 10 ^ 20) ∧
  sumMinerFees ([txRich] ++ [txPoor]) =
    sumMinerFees [txRich] ≫= λ a, sumMinerFees [txPoor] ≫= λ b, Add a b.
Proof.
  destruct sumMinerFees_order_free as (Hperm & _ & Happ & _).
  split; [apply Hperm, perm_swap|].
  split; [vm_compute; reflexivity|]. apply Happ.
Defined.

End PoolMoreFacts.
